(** * xgboost tree/param.h: leaf weight, split gain, monotone bounds, best split

    A shallow embedding of the numeric and decision core of
    [src/tree/param.h]: [ThresholdL1], [CalcGainGivenWeight], [CalcGain],
    [CalcWeight], [GradStats], [ValueConstraint] and [SplitEntry].

    Numbers.  The statistics are C++ [double]s; they are modelled by Rocq's
    primitive binary64 [float], whose operations are the IEEE 754 ones the
    compiled code runs (round to nearest even, signed zeros, infinities, a
    single NaN; each operation rounded on its own, without fused
    multiply-add).  The fields of [TrainParam] and [SplitEntry::loss_chg] are
    C++ [float]s (binary32).  Every binary32 value is a binary64 value, the
    promotion to [double] is exact, and the code only compares, negates and
    copies such values before it promotes them, so they are carried here as
    binary64 values as well.  The templates are embedded at [T = double], the
    instantiation [GradStats] selects.

    Integers.  [unsigned] is a 32-bit word, modelled as a [Z] in
    [0, 2^32) with the bit operations of the source written with [Z.land],
    [Z.lor] and [Z.shiftr]. *)

From Stdlib Require Import ZArith Lia Bool List Floats.
From Stdlib Require Import Permutation.
From Stdlib Require Ascii String DecimalString DecimalPos DecimalZ.
Import ListNotations.

Local Open Scope float_scope.

(** ** C++ comparison operators on [double] *)

Module Cmp.

Definition gt (a b : float) : bool := b <? a.
Definition lt (a b : float) : bool := a <? b.
Definition ge (a b : float) : bool := b <=? a.
Definition le (a b : float) : bool := a <=? b.
Definition eq (a b : float) : bool := a =? b.
Definition ne (a b : float) : bool := negb (a =? b).

End Cmp.

(** [std::numeric_limits<double>::max()], the largest finite double. *)
Definition DBL_MAX : float := 0x1.fffffffffffffp+1023.

(** The conversion [double -> float -> double]: rounding to the nearest
    binary32 value (ties to even, overflow to an infinity, gradual underflow),
    read back as a double.  [binary_round 24 128] is the binary32 rounding of
    the Standard Library's specification of IEEE 754. *)
Definition to_float32 (x : float) : float :=
  match Prim2SF x with
  | S754_finite s m e => SF2Prim (binary_round 24 128 s m e)
  | _ => x
  end.

(** ** [TrainParam]: the fields read by the functions below *)

Record TrainParam := {
  min_child_weight : float;
  reg_lambda : float;
  reg_alpha : float;
  max_delta_step : float;
  monotone_constraints : list Z
}.

(** ** Loss functions *)

Definition ThresholdL1 (w alpha : float) : float :=
  if Cmp.gt w alpha then w - alpha
  else if Cmp.lt w (- alpha) then w + alpha
  else 0.

Definition Sqr (a : float) : float := a * a.

Definition CalcGainGivenWeight (p : TrainParam) (sum_grad sum_hess w : float)
  : float :=
  - (2 * sum_grad * w + (sum_hess + reg_lambda p) * Sqr w).

Definition CalcWeight (p : TrainParam) (sum_grad sum_hess : float) : float :=
  if Cmp.lt sum_hess (min_child_weight p) || Cmp.le sum_hess 0 then 0
  else
    let dw :=
      if Cmp.eq (reg_alpha p) 0
      then - sum_grad / (sum_hess + reg_lambda p)
      else - ThresholdL1 sum_grad (reg_alpha p) / (sum_hess + reg_lambda p) in
    if Cmp.ne (max_delta_step p) 0 then
      let dw := if Cmp.gt dw (max_delta_step p) then max_delta_step p else dw in
      let dw :=
        if Cmp.lt dw (- max_delta_step p) then - max_delta_step p else dw in
      dw
    else dw.

Definition CalcGain (p : TrainParam) (sum_grad sum_hess : float) : float :=
  if Cmp.lt sum_hess (min_child_weight p) then 0
  else if Cmp.eq (max_delta_step p) 0 then
    if Cmp.eq (reg_alpha p) 0
    then Sqr sum_grad / (sum_hess + reg_lambda p)
    else Sqr (ThresholdL1 sum_grad (reg_alpha p)) / (sum_hess + reg_lambda p)
  else
    let w := CalcWeight p sum_grad sum_hess in
    let ret := CalcGainGivenWeight p sum_grad sum_hess w in
    if Cmp.eq (reg_alpha p) 0 then ret
    else ret + reg_alpha p * abs w.

(** ** [GradStats] *)

Record GradStats := mkGradStats {
  sum_grad : float;
  sum_hess : float
}.

Module GradStats.

Definition default : GradStats := mkGradStats 0 0.

Definition Add (a b : GradStats) : GradStats :=
  mkGradStats (sum_grad a + sum_grad b) (sum_hess a + sum_hess b).

Definition Reduce (a b : GradStats) : GradStats := Add a b.

Definition SetSubstract (a b : GradStats) : GradStats :=
  mkGradStats (sum_grad a - sum_grad b) (sum_hess a - sum_hess b).

Definition Empty (a : GradStats) : bool := Cmp.eq (sum_hess a) 0.

End GradStats.

(** [CalcWeight(p, stats)], the overload on a statistics object.  Its
    declared return type is [float], so the double computed by the
    three-argument overload is narrowed to single precision on return. *)
Definition CalcWeightStats (p : TrainParam) (s : GradStats) : float :=
  to_float32 (CalcWeight p (sum_grad s) (sum_hess s)).

(** ** [ValueConstraint] *)

Record ValueConstraint := mkValueConstraint {
  lower_bound : float;
  upper_bound : float
}.

(** What a call of [SetChild] leaves behind.  [std::vector::at] throws
    [std::out_of_range] before anything is written; [CHECK(!std::isnan(mid))]
    fails after both output objects have received their copy of [*this]. *)
Inductive SetChildResult :=
| Returned (cleft cright : ValueConstraint)
| OutOfRange
| CheckFailed (cleft cright : ValueConstraint).

Module ValueConstraint.

(** The default constructor. *)
Definition default : ValueConstraint :=
  mkValueConstraint (- DBL_MAX) DBL_MAX.

Definition CalcWeight (c : ValueConstraint) (p : TrainParam) (s : GradStats)
  : float :=
  let w := CalcWeightStats p s in
  if Cmp.lt w (lower_bound c) then lower_bound c
  else if Cmp.gt w (upper_bound c) then upper_bound c
  else w.

Definition CalcGain (c : ValueConstraint) (p : TrainParam) (s : GradStats)
  : float :=
  CalcGainGivenWeight p (sum_grad s) (sum_hess s) (CalcWeight c p s).

Definition CalcSplitGain (c : ValueConstraint) (p : TrainParam)
  (constraint : Z) (left right : GradStats) : float :=
  let negative_infinity := neg_infinity in
  let wleft := CalcWeight c p left in
  let wright := CalcWeight c p right in
  let gain :=
    CalcGainGivenWeight p (sum_grad left) (sum_hess left) wleft +
    CalcGainGivenWeight p (sum_grad right) (sum_hess right) wright in
  if (constraint =? 0)%Z then gain
  else if (constraint >? 0)%Z then
    if Cmp.le wleft wright then gain else negative_infinity
  else
    if Cmp.ge wleft wright then gain else negative_infinity.

(** [SetChild]; the two output objects are distinct from [*this] and from
    each other, as at every call site, and are returned as a pair. *)
Definition SetChild (c : ValueConstraint) (p : TrainParam) (split_index : Z)
  (left right : GradStats) : SetChildResult :=
  match nth_error (monotone_constraints p) (Z.to_nat split_index) with
  | None => OutOfRange
  | Some k =>
    let cleft := c in
    let cright := c in
    if (k =? 0)%Z then Returned cleft cright
    else
      let wleft := CalcWeight c p left in
      let wright := CalcWeight c p right in
      let mid := (wleft + wright) / 2 in
      if is_nan mid then CheckFailed cleft cright
      else if (k <? 0)%Z then
        Returned (mkValueConstraint mid (upper_bound cleft))
                 (mkValueConstraint (lower_bound cright) mid)
      else
        Returned (mkValueConstraint (lower_bound cleft) mid)
                 (mkValueConstraint mid (upper_bound cright))
  end.

End ValueConstraint.

(** ** [SplitEntry] *)

Record SplitEntry := mkSplitEntry {
  loss_chg : float;
  sindex : Z;
  split_value : float;
  left_sum : GradStats;
  right_sum : GradStats
}.

Module SplitEntry.

Definition default : SplitEntry :=
  mkSplitEntry 0 0 0 GradStats.default GradStats.default.

(** [sindex & ((1U << 31) - 1U)] *)
Definition SplitIndex (e : SplitEntry) : Z :=
  Z.land (sindex e) (Z.shiftl 1 31 - 1).

(** [(sindex >> 31) != 0] *)
Definition DefaultLeft (e : SplitEntry) : bool :=
  negb (Z.shiftr (sindex e) 31 =? 0)%Z.

Definition NeedReplace (e : SplitEntry) (new_loss_chg : float)
  (split_index : Z) : bool :=
  if (SplitIndex e <=? split_index)%Z
  then Cmp.gt new_loss_chg (loss_chg e)
  else negb (Cmp.gt (loss_chg e) new_loss_chg).

(** [Update(const SplitEntry &e)]: the record afterwards and the returned
    flag. *)
Definition Update (this e : SplitEntry) : SplitEntry * bool :=
  if NeedReplace this (loss_chg e) (SplitIndex e)
  then (mkSplitEntry (loss_chg e) (sindex e) (split_value e)
                     (left_sum e) (right_sum e), true)
  else (this, false).

(** [Update(new_loss_chg, split_index, new_split_value, default_left,
    left_sum, right_sum)] *)
Definition UpdateRaw (this : SplitEntry) (new_loss_chg : float)
  (split_index : Z) (new_split_value : float) (default_left : bool)
  (left_sum right_sum : GradStats) : SplitEntry * bool :=
  if NeedReplace this new_loss_chg split_index
  then
    let split_index :=
      if default_left then Z.lor split_index (Z.shiftl 1 31) else split_index in
    (mkSplitEntry new_loss_chg split_index new_split_value left_sum right_sum,
     true)
  else (this, false).

(** [Reduce(dst, src)]: [dst] afterwards. *)
Definition Reduce (dst src : SplitEntry) : SplitEntry :=
  fst (Update dst src).

End SplitEntry.

(** ** Merging best-split records

    [SplitEntry::Reduce] is the combiner handed to the all-reduce.  A merge
    order is a binary tree whose leaves, read left to right, are the records
    to combine; the sequential order is the left fold. *)

Inductive mtree :=
| Leaf (e : SplitEntry)
| Node (l r : mtree).

Fixpoint leaves (t : mtree) : list SplitEntry :=
  match t with
  | Leaf e => [e]
  | Node l r => leaves l ++ leaves r
  end.

Fixpoint reduce_tree (t : mtree) : SplitEntry :=
  match t with
  | Leaf e => e
  | Node l r => SplitEntry.Reduce (reduce_tree l) (reduce_tree r)
  end.

Definition reduce_fold (x : SplitEntry) (xs : list SplitEntry) : SplitEntry :=
  fold_left SplitEntry.Reduce xs x.

Fixpoint size (t : mtree) : nat :=
  match t with
  | Leaf _ => 1
  | Node l r => size l + size r
  end.

(** At every node the two subtrees hold the same number of leaves, or the
    right one holds one more. *)
Fixpoint balanced (t : mtree) : bool :=
  match t with
  | Leaf _ => true
  | Node l r =>
      (size l <=? size r)%nat && (size r <=? S (size l))%nat
      && balanced l && balanced r
  end.

(** The balanced tree over [x :: xs]: split in the middle, recursively.
    [fuel] bounds the depth; [length xs] is enough. *)
Fixpoint build (fuel : nat) (x : SplitEntry) (xs : list SplitEntry) : mtree :=
  match fuel, xs with
  | _, [] => Leaf x
  | O, _ :: _ => Leaf x
  | S fuel', _ :: _ =>
      let k := (length (x :: xs) / 2)%nat in
      match firstn k (x :: xs), skipn k (x :: xs) with
      | l :: ls, r :: rs => Node (build fuel' l ls) (build fuel' r rs)
      | _, _ => Leaf x
      end
  end.

Definition balanced_tree (x : SplitEntry) (xs : list SplitEntry) : mtree :=
  build (length xs) x xs.

(** ** The formulas of the specification

    Written from the prose of the specification, to be compared with the
    functions above. *)

(** "clip [dw] into [[-bound, bound]]" *)
Definition spec_clip (bound dw : float) : float :=
  let dw := if Cmp.gt dw bound then bound else dw in
  if Cmp.lt dw (- bound) then - bound else dw.

(** "If [sum_hess < min_child_weight] or [sum_hess <= 0], return 0.  Compute
    [dw = -SoftThreshold(sum_grad, reg_alpha) / (sum_hess + reg_lambda)].  If
    [max_delta_step != 0], clip.  Return [dw]."  [SoftThreshold] is
    [ThresholdL1]. *)
Definition spec_CalcWeight (p : TrainParam) (sum_grad sum_hess : float)
  : float :=
  if Cmp.lt sum_hess (min_child_weight p) || Cmp.le sum_hess 0 then 0
  else
    let dw :=
      (- ThresholdL1 sum_grad (reg_alpha p)) / (sum_hess + reg_lambda p) in
    if Cmp.ne (max_delta_step p) 0 then spec_clip (max_delta_step p) dw
    else dw.

(** "If [sum_hess < min_child_weight], return 0.  If [max_delta_step == 0]:
    [SoftThreshold(sum_grad, reg_alpha)^2 / (sum_hess + reg_lambda)].  Else
    [w = CalcWeight(...)], [gain = -(2 g w + (h + reg_lambda) w^2)], and if
    [reg_alpha != 0] add [reg_alpha * |w|]." *)
Definition spec_CalcGain (p : TrainParam) (sum_grad sum_hess : float)
  : float :=
  if Cmp.lt sum_hess (min_child_weight p) then 0
  else if Cmp.eq (max_delta_step p) 0 then
    Sqr (ThresholdL1 sum_grad (reg_alpha p)) / (sum_hess + reg_lambda p)
  else
    let w := CalcWeight p sum_grad sum_hess in
    let gain := - (2 * sum_grad * w + (sum_hess + reg_lambda p) * (w * w)) in
    if Cmp.ne (reg_alpha p) 0 then gain + reg_alpha p * abs w else gain.

(** "compute the unconstrained weight via section 4.2, then project it into
    [[lower_bound, upper_bound]] (clamp)": the weight of section 4.2 is the
    double returned by the three-argument [CalcWeight]. *)
Definition spec_projected_weight (c : ValueConstraint) (p : TrainParam)
  (s : GradStats) : float :=
  let w := CalcWeight p (sum_grad s) (sum_hess s) in
  if Cmp.lt w (lower_bound c) then lower_bound c
  else if Cmp.gt w (upper_bound c) then upper_bound c
  else w.

(** "compute [wleft], [wright] via the projected [CalcWeight]; sum their
    [CalcGainGivenWeight] contributions.  If [constraint_direction == 0]
    return the sum unmodified.  If [constraint_direction > 0] return the sum
    only if [wleft <= wright], else return negative infinity.  If
    [constraint_direction < 0], symmetric requirement [wleft >= wright]." *)
Definition spec_CalcSplitGain (c : ValueConstraint) (p : TrainParam)
  (constraint_direction : Z) (left right : GradStats) : float :=
  let wleft := spec_projected_weight c p left in
  let wright := spec_projected_weight c p right in
  let gain :=
    CalcGainGivenWeight p (sum_grad left) (sum_hess left) wleft +
    CalcGainGivenWeight p (sum_grad right) (sum_hess right) wright in
  if (constraint_direction =? 0)%Z then gain
  else if (constraint_direction >? 0)%Z then
    if Cmp.le wleft wright then gain else neg_infinity
  else
    if Cmp.ge wleft wright then gain else neg_infinity.

(** ** The order of doubles

    [x] is ordered when it is not NaN.  On ordered doubles [<] is the
    lexicographic order of [frank]: the sign class first, then exponent and
    mantissa (reversed for negative numbers); both zeros share a rank. *)

Definition ordered (x : float) : Prop := is_nan x = false.

Definition rank (x : spec_float) : Z * Z * Z :=
  match x with
  | S754_nan => (0, 0, 0)%Z
  | S754_zero _ => (0, 0, 0)%Z
  | S754_infinity true => (-2, 0, 0)%Z
  | S754_infinity false => (2, 0, 0)%Z
  | S754_finite false m e => (1, e, Zpos m)%Z
  | S754_finite true m e => (-1, - e, Zneg m)%Z
  end.

Definition frank (x : float) : Z * Z * Z := rank (Prim2SF x).

Definition lex3 (a b : Z * Z * Z) : Prop :=
  let '(a1, a2, a3) := a in
  let '(b1, b2, b3) := b in
  (a1 < b1 \/ a1 = b1 /\ (a2 < b2 \/ a2 = b2 /\ a3 < b3))%Z.

Definition in_interval (lo hi x : float) : Prop :=
  Cmp.le lo x = true /\ Cmp.le x hi = true.

(** [r] is [w] clamped into the bounds of [c]. *)
Definition clamped (c : ValueConstraint) (w r : float) : Prop :=
  (Cmp.lt w (lower_bound c) = true -> r = lower_bound c) /\
  (Cmp.lt w (lower_bound c) = false -> Cmp.gt w (upper_bound c) = true ->
   r = upper_bound c) /\
  (Cmp.lt w (lower_bound c) = false -> Cmp.gt w (upper_bound c) = false ->
   r = w) /\
  (Cmp.le (lower_bound c) (upper_bound c) = true -> ordered w ->
   in_interval (lower_bound c) (upper_bound c) r).

(** A specification float above zero. *)
Definition positive_SF (x : spec_float) : Prop :=
  match x with
  | S754_finite false _ _ | S754_infinity false => True
  | _ => False
  end.

(** A record whose [loss_chg] is not NaN. *)
Definition gain_ordered (e : SplitEntry) : Prop := ordered (loss_chg e).

(** ** The rest of [TrainParam] and [ValueConstraint]

    [NeedForwardSearch] and [NeedBackwardSearch] read the fields
    [default_direction] and [opt_dense_col] of [TrainParam], taken here as
    arguments; [col_density] and [opt_dense_col] are C++ [float]s.  The
    second function ignores both of its arguments. *)

Definition NeedForwardSearch (default_direction : Z) (opt_dense_col : float)
  (col_density : float) (indicator : bool) : bool :=
  (default_direction =? 2)%Z ||
  ((default_direction =? 0)%Z && Cmp.lt col_density opt_dense_col
   && negb indicator).

Definition NeedBackwardSearch (default_direction : Z) (col_density : float)
  (indicator : bool) : bool :=
  negb (default_direction =? 2)%Z.

(** [std::vector<int>::resize(n, 0)] *)
Definition resize (l : list Z) (n : nat) : list Z :=
  firstn n l ++ repeat 0%Z (n - length l).

(** [ValueConstraint::Init(param, num_feature)]: [*param] afterwards. *)
Definition ValueConstraint_Init (p : TrainParam) (num_feature : Z)
  : TrainParam :=
  {| min_child_weight := min_child_weight p;
     reg_lambda := reg_lambda p;
     reg_alpha := reg_alpha p;
     max_delta_step := max_delta_step p;
     monotone_constraints :=
       resize (monotone_constraints p) (Z.to_nat num_feature) |}.

(** ** Rank of an opposite *)

Definition neg3 (a : Z * Z * Z) : Z * Z * Z :=
  let '(a1, a2, a3) := a in (- a1, - a2, - a3)%Z.

(** A specification float that is zero or above, with the sign bit clear. *)
Definition nonneg_SF (x : spec_float) : Prop :=
  match x with
  | S754_zero false | S754_finite false _ _ | S754_infinity false => True
  | _ => False
  end.

(** A specification float that is a zero or has sign [s]. *)
Definition signed_SF (s : bool) (x : spec_float) : Prop :=
  match x with
  | S754_zero _ => True
  | S754_finite s' _ _ | S754_infinity s' => s' = s
  | S754_nan => False
  end.

(** [x] is zero, of sign [s], or NaN. *)
Definition sgn (s : bool) (x : float) : Prop :=
  signed_SF s (Prim2SF x) \/ Prim2SF x = S754_nan.

(** ** Reading and writing [std::vector<int>]

    [operator<<] and [operator>>] for [std::vector<int>], the type of
    [monotone_constraints].  Characters are [ascii] values and an [int] is a
    [Z] between [INT_MIN] and [INT_MAX].

    The stream operations [peek], [get], [is >> idx] and [setstate] follow
    the C++ standard for a stream in the classic locale with its default
    flags: an input function on a stream that is not good sets [failbit] and
    reads nothing; [peek] at the end of the input sets [eofbit]; [get] at the
    end sets [failbit] and [eofbit].  Of the stream only the unread
    characters and these two bits are kept.  The value [is >> idx] leaves in
    [idx] when it fails is never read by [operator>>], so a failed extraction
    is [None]. *)

Module VecIO.

Import Ascii String DecimalString.
Local Open Scope Z_scope.

(** [os << i] for an [int], with the default formatting flags: decimal,
    a minus sign for negative values, no padding. *)
Definition put_int (z : Z) : string := NilZero.string_of_int (Z.to_int z).

(** The body of the [for] loop of [operator<<]; [first] is
    [it == t.begin()]. *)
Fixpoint put_items (first : bool) (t : list Z) : string :=
  match t with
  | [] => EmptyString
  | x :: r =>
      ((if first then "" else ",") ++ put_int x ++ put_items false r)%string
  end.

(** [operator<<(os, t)]: the characters written. *)
Definition operator_out (t : list Z) : string :=
  ("(" ++ put_items true t ++ (if (List.length t =? 1)%nat then "," else "")
       ++ ")")%string.

(** An input stream: the characters not yet read and two state bits. *)
Record istream := mkIstream {
  buf : string;
  failbit : bool;
  eofbit : bool
}.

Definition good (s : istream) : bool := negb (failbit s || eofbit s).

Definition setstate (s : istream) (f e : bool) : istream :=
  mkIstream (buf s) (failbit s || f) (eofbit s || e).

(** [is.peek()]; [None] is [traits::eof()]. *)
Definition peek (s : istream) : option ascii * istream :=
  if good s then
    match buf s with
    | EmptyString => (None, setstate s false true)
    | String c _ => (Some c, s)
    end
  else (None, setstate s true false).

(** [is.get()] *)
Definition get (s : istream) : option ascii * istream :=
  if good s then
    match buf s with
    | EmptyString => (None, setstate s true true)
    | String c r => (Some c, mkIstream r (failbit s) (eofbit s))
    end
  else (None, setstate s true false).

Definition digit (c : ascii) : option (Decimal.uint -> Decimal.uint) :=
  match c with
  | "0" => Some Decimal.D0 | "1" => Some Decimal.D1 | "2" => Some Decimal.D2
  | "3" => Some Decimal.D3 | "4" => Some Decimal.D4 | "5" => Some Decimal.D5
  | "6" => Some Decimal.D6 | "7" => Some Decimal.D7 | "8" => Some Decimal.D8
  | "9" => Some Decimal.D9 | _ => None
  end%char.

Definition space (c : ascii) : bool :=
  match c with
  | " " | "009" | "010" | "011" | "012" | "013" => true
  | _ => false
  end%char.

(** [isdigit(ch)], [isspace(ch)] and [ch == c] on the result of [peek] or
    [get]. *)
Definition isdigit (ch : option ascii) : bool :=
  match ch with
  | Some c => match digit c with Some _ => true | None => false end
  | None => false
  end.

Definition isspace (ch : option ascii) : bool :=
  match ch with Some c => space c | None => false end.

Definition is_char (ch : option ascii) (c : ascii) : bool :=
  match ch with Some x => Ascii.eqb x c | None => false end.

Fixpoint skipws (b : string) : string :=
  match b with
  | String c r => if space c then skipws r else b
  | EmptyString => b
  end.

Fixpoint read_digits (b : string) : Decimal.uint * string :=
  match b with
  | String c r =>
      match digit c with
      | Some d => let (u, rest) := read_digits r in (d u, rest)
      | None => (Decimal.Nil, b)
      end
  | EmptyString => (Decimal.Nil, b)
  end.

Definition INT_MIN : Z := - 2 ^ 31.
Definition INT_MAX : Z := 2 ^ 31 - 1.

Definition at_end (b : string) : bool :=
  match b with EmptyString => true | _ => false end.

(** The conversion of the digits read: no digit or a value outside [int]
    sets [failbit]; reaching the end of the input sets [eofbit]. *)
Definition convert (neg : bool) (b1 : string) : option Z * istream :=
  let '(u, rest) := read_digits b1 in
  match u with
  | Decimal.Nil => (None, mkIstream rest true (at_end rest))
  | _ =>
      let v := if neg then - Z.of_uint u else Z.of_uint u in
      if (INT_MIN <=? v) && (v <=? INT_MAX)
      then (Some v, mkIstream rest false (at_end rest))
      else (None, mkIstream rest true (at_end rest))
  end.

(** [is >> idx] for an [int]: the value extracted, [None] when the
    extraction sets [failbit].  White space is skipped first, then an
    optional sign and the digits are read. *)
Definition extract_int (s : istream) : option Z * istream :=
  if good s then
    match skipws (buf s) with
    | EmptyString => (None, mkIstream EmptyString true true)
    | String c r =>
        match c with
        | "-"%char => convert true r
        | "+"%char => convert false r
        | _ => convert false (String c r)
        end
    end
  else (None, setstate s true false).

(** [do { ch = is.get(); } while (isspace(ch));] *)
Fixpoint get_nonspace (fuel : nat) (st : istream)
  : option (option ascii * istream) :=
  match fuel with
  | O => None
  | S fuel' =>
      let '(ch, st) := get st in
      if isspace ch then get_nonspace fuel' st else Some (ch, st)
  end.

(** The loop after a comma: skip spaces, consume a closing parenthesis. *)
Fixpoint after_comma (fuel : nat) (st : istream)
  : option (option ascii * istream) :=
  match fuel with
  | O => None
  | S fuel' =>
      let '(ch, st) := peek st in
      if isspace ch then after_comma fuel' (snd (get st))
      else if is_char ch ")" then Some (ch, snd (get st))
      else Some (ch, st)
  end.

(** The second loop, [while (is >> idx)], and the assignment after it; the
    result is the stream and [t] at the return. *)
Fixpoint read_list (fuel : nat) (st : istream) (tmp t : list Z)
  : option (istream * list Z) :=
  match fuel with
  | O => None
  | S fuel' =>
      let '(r, st) := extract_int st in
      match r with
      | None => Some (st, tmp)
      | Some idx =>
          let tmp := (tmp ++ [idx])%list in
          match get_nonspace fuel' st with
          | None => None
          | Some (ch, st) =>
              let '(ch, st) := if is_char ch "L" then get st else (ch, st) in
              if is_char ch "," then
                match after_comma fuel' st with
                | None => None
                | Some (ch, st) =>
                    if is_char ch ")" then Some (st, tmp)
                    else read_list fuel' st tmp t
                end
              else if is_char ch ")" then Some (st, tmp)
              else Some (setstate st true false, t)
          end
      end
  end.

(** The first loop, up to the opening parenthesis: [inl] when the function
    returns inside the loop, [inr] when the loop is left by [break]. *)
Fixpoint seek_open (fuel : nat) (st : istream) (t : list Z)
  : option (istream * list Z + istream) :=
  match fuel with
  | O => None
  | S fuel' =>
      let '(ch, st) := peek st in
      if isdigit ch then
        let '(r, st) := extract_int st in
        match r with
        | Some idx => Some (inl (st, [idx]))
        | None => Some (inl (st, t))
        end
      else
        let st := snd (get st) in
        if is_char ch "(" then Some (inr st)
        else if negb (isspace ch) then Some (inl (setstate st true false, t))
        else seek_open fuel' st t
  end.

Definition operator_in_fuel (fuel : nat) (st : istream) (t : list Z)
  : option (istream * list Z) :=
  match seek_open fuel st t with
  | None => None
  | Some (inl res) => Some res
  | Some (inr st) => read_list fuel st [] t
  end.

(** [operator>>(is, t)]: the stream and [t] afterwards.  No loop runs more
    often than there are characters left, plus one. *)
Definition operator_in (st : istream) (t : list Z) : option (istream * list Z) :=
  operator_in_fuel (String.length (buf st) + 2) st t.

(** The input [b] is empty or starts with a character that is no digit. *)
Definition starts_nondigit (b : string) : bool :=
  match b with
  | String c _ => match digit c with Some _ => false | None => true end
  | EmptyString => true
  end.

Definition in_int_range (z : Z) : Prop := INT_MIN <= z <= INT_MAX.

End VecIO.

(** * Properties *)

(** ** The worked examples of the specification *)

Example CalcWeight_ridge :
  CalcWeight (Build_TrainParam 1 1 0 0 []) (-10) 5 = 10 / 6.
Proof. reflexivity. Qed.

Example CalcGain_ridge :
  CalcGain (Build_TrainParam 1 1 0 0 []) (-10) 5 = 100 / 6.
Proof. reflexivity. Qed.

Example CalcWeight_lasso :
  ThresholdL1 (-10) 3 = -7 /\
  CalcWeight (Build_TrainParam 1 1 3 0 []) (-10) 5 = 7 / 6.
Proof. split; reflexivity. Qed.

Example CalcGain_lasso :
  CalcGain (Build_TrainParam 1 1 3 0 []) (-10) 5 = 49 / 6.
Proof. reflexivity. Qed.

Example CalcWeight_clipped :
  let p := Build_TrainParam 1 1 0 0.5 [] in
  CalcWeight p (-10) 5 = 0.5 /\ CalcGainGivenWeight p (-10) 5 0.5 = 8.5 /\
  CalcGain p (-10) 5 = 8.5.
Proof. repeat split. Qed.

Example to_float32_rounds :
  to_float32 (10 / 6) = 0x1.aaaaaap+0 /\
  to_float32 DBL_MAX = infinity /\
  to_float32 0x1.000001p+0 = 1 /\
  to_float32 0x1p-150 = 0.
Proof. repeat split. Qed.

Example SetChild_midpoint :
  let p := Build_TrainParam 1 0 0 0 [1%Z] in
  let c := ValueConstraint.default in
  let left := mkGradStats (-2) 1 in
  let right := mkGradStats (-4) 1 in
  ValueConstraint.CalcWeight c p left = 2 /\
  ValueConstraint.CalcWeight c p right = 4 /\
  ValueConstraint.SetChild c p 0 left right =
    Returned (mkValueConstraint (- DBL_MAX) 3) (mkValueConstraint 3 DBL_MAX).
Proof. repeat split. Qed.

(** ** Comparisons of doubles *)

Module FloatOrder.

Lemma SFltb_rank x y :
  x <> S754_nan -> y <> S754_nan ->
  SFltb x y = true <-> lex3 (rank x) (rank y).
Proof.
  intros Hx Hy.
  destruct x as [[]|[]| |[] mx ex], y as [[]|[]| |[] my ey];
    try congruence; unfold SFltb, SFcompare, lex3, rank;
    try (split; [discriminate | lia]);
    try (split; [lia | reflexivity]);
    rewrite ?Pos.compare_cont_spec; simpl;
    destruct (Z.compare_spec ex ey); destruct (Pos.compare_spec mx my);
    simpl; split; intros; try discriminate; try reflexivity; try lia.
Qed.

Lemma SFeqb_rank x y :
  x <> S754_nan -> y <> S754_nan ->
  SFeqb x y = true <-> rank x = rank y.
Proof.
  intros Hx Hy.
  destruct x as [[]|[]| |[] mx ex], y as [[]|[]| |[] my ey];
    try congruence; unfold SFeqb, SFcompare, rank;
    try (split; [discriminate | intros [=]; lia]);
    try (split; [lia | reflexivity]);
    try (split; reflexivity);
    rewrite ?Pos.compare_cont_spec; simpl;
    destruct (Z.compare_spec ex ey); destruct (Pos.compare_spec mx my);
    simpl; split; intros H'; try discriminate; try reflexivity;
    try (injection H'; intros; lia); try (f_equal; lia);
    try (subst; reflexivity).
Qed.

Lemma SFleb_rank x y :
  x <> S754_nan -> y <> S754_nan ->
  SFleb x y = true <-> ~ lex3 (rank y) (rank x).
Proof.
  intros Hx Hy.
  destruct x as [[]|[]| |[] mx ex], y as [[]|[]| |[] my ey];
    try congruence; unfold SFleb, SFcompare, lex3, rank;
    try (split; [discriminate | lia]);
    try (split; [lia | reflexivity]);
    rewrite ?Pos.compare_cont_spec; simpl;
    destruct (Z.compare_spec ex ey); destruct (Pos.compare_spec mx my);
    simpl; split; intros; try discriminate; try reflexivity; try lia.
Qed.

Lemma SFcompare_nan_r x : SFcompare x S754_nan = None.
Proof. now destruct x. Qed.

Lemma Prim2SF_nan x : Prim2SF x = S754_nan <-> is_nan x = true.
Proof.
  unfold Prim2SF. destruct (is_nan x); [tauto|].
  split; [|discriminate].
  destruct (is_zero x); [discriminate|].
  destruct (is_infinity x); [discriminate|].
  destruct (Z.frexp x) as [r e].
  destruct (shr_fexp _ _ _ _ _) as [s e'].
  destruct (shr_m s); discriminate.
Qed.

Lemma ordered_Prim2SF x : ordered x <-> Prim2SF x <> S754_nan.
Proof.
  unfold ordered. rewrite Prim2SF_nan. destruct (is_nan x); split; congruence.
Qed.

Lemma ltb_lex x y :
  ordered x -> ordered y -> (x <? y) = true <-> lex3 (frank x) (frank y).
Proof.
  intros Hx Hy. rewrite ltb_spec.
  apply SFltb_rank; now apply ordered_Prim2SF.
Qed.

Lemma eqb_lex x y :
  ordered x -> ordered y -> (x =? y) = true <-> frank x = frank y.
Proof.
  intros Hx Hy. rewrite eqb_spec.
  apply SFeqb_rank; now apply ordered_Prim2SF.
Qed.

Lemma leb_lex x y :
  ordered x -> ordered y -> (x <=? y) = true <-> ~ lex3 (frank y) (frank x).
Proof.
  intros Hx Hy. rewrite leb_spec.
  apply SFleb_rank; now apply ordered_Prim2SF.
Qed.

Lemma ltb_nan_l x y : is_nan x = true -> (x <? y) = false.
Proof.
  intros H. apply Prim2SF_nan in H. rewrite ltb_spec, H. reflexivity.
Qed.

Lemma ltb_nan_r x y : is_nan y = true -> (x <? y) = false.
Proof.
  intros H. apply Prim2SF_nan in H. rewrite ltb_spec, H.
  unfold SFltb. now rewrite SFcompare_nan_r.
Qed.

(** A comparison that holds has two ordered operands. *)
Ltac operands_ordered H :=
  unfold ordered; split;
  [ match goal with |- is_nan ?x = false =>
      destruct (is_nan x) eqn:E; [|reflexivity];
      apply Prim2SF_nan in E; rewrite E in H; discriminate end
  | match goal with |- is_nan ?y = false =>
      destruct (is_nan y) eqn:E; [|reflexivity];
      apply Prim2SF_nan in E; rewrite E in H;
      unfold SFeqb, SFltb, SFleb in H;
      now rewrite SFcompare_nan_r in H end ].

Lemma eqb_ordered x y : (x =? y) = true -> ordered x /\ ordered y.
Proof. rewrite eqb_spec. intros H. operands_ordered H. Qed.

Lemma ltb_ordered x y : (x <? y) = true -> ordered x /\ ordered y.
Proof. rewrite ltb_spec. intros H. operands_ordered H. Qed.

Lemma leb_ordered x y : (x <=? y) = true -> ordered x /\ ordered y.
Proof. rewrite leb_spec. intros H. operands_ordered H. Qed.

Lemma ltb_irrefl x : (x <? x) = false.
Proof.
  destruct (x <? x) eqn:E; [|reflexivity].
  destruct (ltb_ordered _ _ E) as [Hx _].
  apply (ltb_lex x x Hx Hx) in E.
  unfold lex3 in E. destruct (frank x) as [[a b] c]. lia.
Qed.

Lemma ltb_asym x y : (x <? y) = true -> (y <? x) = false.
Proof.
  intros H. destruct (ltb_ordered _ _ H) as [Hx Hy].
  destruct (y <? x) eqn:E; [|reflexivity].
  apply (ltb_lex _ _ Hx Hy) in H. apply (ltb_lex _ _ Hy Hx) in E.
  unfold lex3 in *.
  destruct (frank x) as [[a b] c], (frank y) as [[a' b'] c']. lia.
Qed.

Lemma ltb_eqb_l x y z : (x =? y) = true -> (x <? z) = (y <? z).
Proof.
  intros H. destruct (eqb_ordered _ _ H) as [Hx Hy].
  apply (eqb_lex _ _ Hx Hy) in H.
  destruct (is_nan z) eqn:Hz.
  - now rewrite !(fun a => ltb_nan_r a z Hz).
  - destruct (x <? z) eqn:E1, (y <? z) eqn:E2; try reflexivity.
    + apply (ltb_lex _ _ Hx Hz) in E1. rewrite H in E1.
      apply (ltb_lex _ _ Hy Hz) in E1. congruence.
    + apply (ltb_lex _ _ Hy Hz) in E2. rewrite <- H in E2.
      apply (ltb_lex _ _ Hx Hz) in E2. congruence.
Qed.

Lemma ltb_eqb_r x y z : (x =? y) = true -> (z <? x) = (z <? y).
Proof.
  intros H. destruct (eqb_ordered _ _ H) as [Hx Hy].
  apply (eqb_lex _ _ Hx Hy) in H.
  destruct (is_nan z) eqn:Hz.
  - now rewrite !(fun a => ltb_nan_l z a Hz).
  - destruct (z <? x) eqn:E1, (z <? y) eqn:E2; try reflexivity.
    + apply (ltb_lex _ _ Hz Hx) in E1. rewrite H in E1.
      apply (ltb_lex _ _ Hz Hy) in E1. congruence.
    + apply (ltb_lex _ _ Hz Hy) in E2. rewrite <- H in E2.
      apply (ltb_lex _ _ Hz Hx) in E2. congruence.
Qed.

Lemma ltb_false_leb x y :
  ordered x -> ordered y -> (x <? y) = false -> (y <=? x) = true.
Proof.
  intros Hx Hy H. apply (leb_lex _ _ Hy Hx).
  intros Hl. apply (ltb_lex _ _ Hx Hy) in Hl. congruence.
Qed.

Lemma leb_refl x : ordered x -> (x <=? x) = true.
Proof.
  intros Hx. apply (leb_lex _ _ Hx Hx).
  intros Hl. unfold lex3 in Hl. destruct (frank x) as [[a b] c]. lia.
Qed.

(** Zeros, and arithmetic with a zero operand *)

Lemma eqb_zero_SF a : (a =? 0) = true -> exists s, Prim2SF a = S754_zero s.
Proof.
  rewrite eqb_spec. change (Prim2SF 0) with (S754_zero false).
  destruct (Prim2SF a) as [s|[]| |[] m e]; try discriminate. eauto.
Qed.

Lemma SF_zero_cases x s :
  Prim2SF x = S754_zero s -> x = (if s then neg_zero else zero).
Proof.
  intros H. rewrite <- (SF2Prim_Prim2SF x), H. now destruct s.
Qed.

End FloatOrder.

Import FloatOrder.

(** ** Rounding keeps a positive number positive

    The sum of two positive doubles is computed by rounding a positive
    mantissa; the rounding shifts out fewer bits than the mantissa has, so
    the result is positive (or the positive infinity). *)

Module RoundPositive.

Local Open Scope Z_scope.

Lemma digits2_pos_bounds m :
  2 ^ (Zpos (digits2_pos m) - 1) <= Zpos m < 2 ^ Zpos (digits2_pos m).
Proof.
  induction m as [m IH | m IH |]; cbn [digits2_pos].
  - rewrite Pos2Z.inj_succ.
    replace (Z.succ (Zpos (digits2_pos m)) - 1)
      with (Z.succ (Zpos (digits2_pos m) - 1)) by lia.
    rewrite !Z.pow_succ_r by lia. lia.
  - rewrite Pos2Z.inj_succ.
    replace (Z.succ (Zpos (digits2_pos m)) - 1)
      with (Z.succ (Zpos (digits2_pos m) - 1)) by lia.
    rewrite !Z.pow_succ_r by lia. lia.
  - simpl. lia.
Qed.

Lemma shr_1_m r : 0 <= shr_m r -> shr_m (shr_1 r) = shr_m r / 2.
Proof.
  destruct r as [m rb sb]. cbn [shr_m].
  destruct m as [|[q|q|]|q]; intros Hm; cbn [shr_1 shr_m]; try lia;
    try reflexivity.
  - rewrite Pos2Z.inj_xI. apply (Z.div_unique _ _ _ 1); lia.
  - rewrite Pos2Z.inj_xO. apply (Z.div_unique _ _ _ 0); lia.
Qed.

Lemma iter_shr_1_m p : forall r,
  0 <= shr_m r -> shr_m (iter_pos shr_1 p r) = shr_m r / 2 ^ Zpos p.
Proof.
  assert (Hnn : forall r, 0 <= shr_m r -> 0 <= shr_m (shr_1 r)).
  { intros r Hr. rewrite shr_1_m by assumption. apply Z.div_pos; lia. }
  induction p as [p IH | p IH |]; intros r Hr; cbn [iter_pos].
  - assert (H1 := Hnn r Hr).
    assert (H2 : 0 <= shr_m (iter_pos shr_1 p (shr_1 r))).
    { rewrite IH by assumption. apply Z.div_pos; [assumption|].
      apply Z.pow_pos_nonneg; lia. }
    rewrite IH, IH, shr_1_m by assumption.
    rewrite !Z.div_div by (try apply Z.pow_pos_nonneg; lia).
    f_equal.
    replace (Zpos p~1) with (Zpos p + Zpos p + 1) by lia.
    rewrite !Z.pow_add_r by lia. change (2 ^ 1) with 2. ring.
  - assert (H2 : 0 <= shr_m (iter_pos shr_1 p r)).
    { rewrite IH by assumption. apply Z.div_pos; [assumption|].
      apply Z.pow_pos_nonneg; lia. }
    rewrite IH, IH by assumption.
    rewrite !Z.div_div by (try apply Z.pow_pos_nonneg; lia).
    f_equal.
    replace (Zpos p~0) with (Zpos p + Zpos p) by lia.
    rewrite Z.pow_add_r by lia. ring.
  - rewrite shr_1_m by assumption. reflexivity.
Qed.

Lemma shr_record_of_loc_m m l : shr_m (shr_record_of_loc m l) = m.
Proof. now destruct l as [|[]]. Qed.

(** Shifting a positive mantissa to its canonical exponent leaves it
    positive, when the exponent is at least [emin]. *)
Lemma shr_fexp_positive m e l :
  emin <= e ->
  let '(r, e') := shr_fexp prec emax (Zpos m) e l in
  0 < shr_m r /\ emin <= e'.
Proof.
  intros He. unfold shr_fexp, shr, fexp. cbn [Zdigits2].
  pose proof (digits2_pos_bounds m) as [Hlo _].
  fold emin.
  destruct (Z.max (Zpos (digits2_pos m) + e - prec) emin - e) as [|n|n] eqn:En.
  - rewrite shr_record_of_loc_m. lia.
  - rewrite iter_shr_1_m by (rewrite shr_record_of_loc_m; lia).
    rewrite shr_record_of_loc_m. split; [|lia].
    apply Z.div_str_pos. split; [apply Z.pow_pos_nonneg; lia|].
    apply Z.le_trans with (2 ^ (Zpos (digits2_pos m) - 1)); [|assumption].
    apply Z.pow_le_mono_r; [lia|]. unfold prec in *. lia.
  - rewrite shr_record_of_loc_m. lia.
Qed.

Lemma round_nearest_even_positive m l : 0 < m -> 0 < round_nearest_even m l.
Proof.
  intros Hm. unfold round_nearest_even.
  destruct l as [|[]]; try lia. destruct (Z.even m); lia.
Qed.

Lemma binary_round_aux_positive m e l :
  emin <= e -> positive_SF (binary_round_aux prec emax false (Zpos m) e l).
Proof.
  intros He. unfold binary_round_aux.
  pose proof (shr_fexp_positive m e l He) as H1.
  destruct (shr_fexp prec emax (Zpos m) e l) as [r1 e1].
  destruct H1 as [Hr1 He1].
  pose proof (round_nearest_even_positive (shr_m r1) (loc_of_shr_record r1) Hr1)
    as Hm2.
  destruct (round_nearest_even (shr_m r1) (loc_of_shr_record r1))
    as [|m2|m2]; try lia.
  pose proof (shr_fexp_positive m2 e1 loc_Exact He1) as H2.
  destruct (shr_fexp prec emax (Zpos m2) e1 loc_Exact) as [r2 e2].
  destruct H2 as [Hr2 _].
  destruct (shr_m r2) as [|m3|m3]; try lia.
  now destruct (e2 <=? emax - prec).
Qed.

Lemma binary_round_positive m e :
  emin <= e -> positive_SF (binary_round prec emax false m e).
Proof.
  intros He. unfold binary_round, shl_align, fexp. fold emin.
  destruct (Z.max (Zpos (digits2_pos m) + e - prec) emin - e) as [|d|d] eqn:Ed;
    apply binary_round_aux_positive; lia.
Qed.

Lemma valid_exponent s m e :
  valid_binary (S754_finite s m e) = true -> emin <= e.
Proof.
  unfold SpecFloat.valid_binary, bounded, canonical_mantissa, fexp. fold emin.
  intros H. apply andb_true_iff in H. destruct H as [H _].
  apply Z.eqb_eq in H. lia.
Qed.

Lemma SFadd_positive x y :
  valid_binary x = true -> valid_binary y = true ->
  positive_SF x -> positive_SF y \/ (exists s, y = S754_zero s) ->
  positive_SF (SF64add x y).
Proof.
  intros Vx Vy Px Py.
  destruct x as [sx|[]| |[] mx ex]; try contradiction;
  destruct Py as [Py | [s ->]];
    try (destruct y as [sy|[]| |[] my ey]; try contradiction);
    try exact I.
  apply valid_exponent in Vx. apply valid_exponent in Vy.
  unfold SF64add, SFadd, binary_normalize. cbn [cond_Zopp].
  cbn [Z.add]. apply binary_round_positive. lia.
Qed.

End RoundPositive.

Lemma SFltb_zero_positive x : SFltb (S754_zero false) x = true <-> positive_SF x.
Proof.
  destruct x as [s|[]| |[] m e]; cbn; split; intros H;
    try discriminate; try contradiction; auto.
Qed.

Lemma SFleb_zero_cases y :
  SFleb (S754_zero false) y = true ->
  positive_SF y \/ exists s, y = S754_zero s.
Proof.
  destruct y as [s|[]| |[] m e]; cbn; intros H; try discriminate; eauto.
Qed.

(** [h > 0] and [l >= 0] give [h + l > 0]. *)
Lemma add_positive h l :
  Cmp.gt h 0 = true -> Cmp.ge l 0 = true -> Cmp.gt (h + l) 0 = true.
Proof.
  unfold Cmp.gt, Cmp.ge. rewrite !ltb_spec, leb_spec, add_spec.
  change (Prim2SF 0) with (S754_zero false).
  rewrite !SFltb_zero_positive. intros Hh Hl.
  apply RoundPositive.SFadd_positive;
    auto using Prim2SF_valid, SFleb_zero_cases.
Qed.

(** ** Soft thresholding with a zero threshold *)

Lemma ThresholdL1_alpha_zero g a :
  Cmp.eq a 0 = true -> ordered g -> g <> neg_zero -> ThresholdL1 g a = g.
Proof.
  intros Ha Hg Hnz. destruct (eqb_zero_SF a Ha) as [sa Esa].
  apply ordered_Prim2SF in Hg.
  unfold ThresholdL1, Cmp.gt, Cmp.lt.
  rewrite !ltb_spec, opp_spec, Esa.
  destruct (Prim2SF g) as [s|s| |s m e] eqn:Eg; try congruence.
  - apply SF_zero_cases in Eg. destruct s; [congruence|].
    cbn. exact (eq_sym Eg).
  - destruct s; cbn; apply Prim2SF_inj;
      rewrite ?add_spec, ?sub_spec, Eg, Esa; now destruct sa.
  - destruct s; cbn; apply Prim2SF_inj;
      rewrite ?add_spec, ?sub_spec, Eg, Esa; now destruct sa.
Qed.

Lemma ThresholdL1_neg_zero a : Cmp.eq a 0 = true -> ThresholdL1 neg_zero a = 0.
Proof.
  intros Ha. destruct (eqb_zero_SF a Ha) as [sa Esa].
  apply SF_zero_cases in Esa. subst a. now destruct sa.
Qed.

Lemma Sqr_ThresholdL1_alpha_zero g a :
  Cmp.eq a 0 = true -> ordered g -> Sqr (ThresholdL1 g a) = Sqr g.
Proof.
  intros Ha Hg.
  destruct (Leibniz.eqb g neg_zero) eqn:E.
  - apply Leibniz.eqb_spec in E. subst g.
    now rewrite ThresholdL1_neg_zero.
  - rewrite ThresholdL1_alpha_zero; try assumption; [reflexivity|].
    intros ->. now rewrite (proj2 (Leibniz.eqb_spec _ _) eq_refl) in E.
Qed.

(** ** [CalcGain] *)

(** C3 (as amended).  [CalcGain] returns 0 when [sum_hess < min_child_weight];
    otherwise, when [max_delta_step = 0], it returns
    [ThresholdL1(sum_grad, reg_alpha)^2 / (sum_hess + reg_lambda)] if
    [reg_alpha != 0] and [sum_grad^2 / (sum_hess + reg_lambda)] if
    [reg_alpha = 0]; otherwise it returns
    [CalcGainGivenWeight(sum_grad, sum_hess, w)] at
    [w = CalcWeight(sum_grad, sum_hess)], plus [reg_alpha * |w|] when
    [reg_alpha != 0], where [CalcGainGivenWeight(g, h, w)] is
    [-(2 g w + (h + reg_lambda) w^2)].  The value is that of the formula of
    the specification whenever [sum_grad] is not NaN, or [reg_alpha != 0], or
    [max_delta_step != 0]. *)
Theorem CalcGain_spec p g h :
  (Cmp.lt h (min_child_weight p) = true -> CalcGain p g h = 0) /\
  (Cmp.lt h (min_child_weight p) = false ->
   Cmp.eq (max_delta_step p) 0 = true ->
   (Cmp.eq (reg_alpha p) 0 = false ->
    CalcGain p g h =
    Sqr (ThresholdL1 g (reg_alpha p)) / (h + reg_lambda p)) /\
   (Cmp.eq (reg_alpha p) 0 = true ->
    CalcGain p g h = Sqr g / (h + reg_lambda p))) /\
  (Cmp.lt h (min_child_weight p) = false ->
   Cmp.eq (max_delta_step p) 0 = false ->
   let w := CalcWeight p g h in
   (Cmp.ne (reg_alpha p) 0 = true ->
    CalcGain p g h = CalcGainGivenWeight p g h w + reg_alpha p * abs w) /\
   (Cmp.ne (reg_alpha p) 0 = false ->
    CalcGain p g h = CalcGainGivenWeight p g h w)) /\
  (forall w, CalcGainGivenWeight p g h w =
             - (2 * g * w + (h + reg_lambda p) * (w * w))) /\
  (ordered g \/ Cmp.eq (reg_alpha p) 0 = false \/
   Cmp.eq (max_delta_step p) 0 = false ->
   CalcGain p g h = spec_CalcGain p g h).
Proof.
  split; [unfold CalcGain; now intros ->|].
  split; [unfold CalcGain; intros -> ->; split; now intros ->|].
  split.
  { unfold CalcGain, Cmp.ne, Cmp.eq. intros -> ->. cbv zeta.
    destruct (reg_alpha p =? 0); split; intros; try discriminate;
      reflexivity. }
  split; [reflexivity|].
  intros H.
  unfold CalcGain, spec_CalcGain, CalcGainGivenWeight, Sqr, Cmp.ne.
  destruct (Cmp.lt h (min_child_weight p)); [reflexivity|].
  destruct (Cmp.eq (max_delta_step p) 0) eqn:Em.
  - destruct (Cmp.eq (reg_alpha p) 0) eqn:Ea; [|reflexivity].
    destruct H as [Hg | [? | ?]]; try discriminate.
    fold (Sqr g). fold (Sqr (ThresholdL1 g (reg_alpha p))).
    now rewrite (Sqr_ThresholdL1_alpha_zero g _ Ea Hg).
  - unfold Cmp.eq. now destruct (reg_alpha p =? 0).
Qed.

Lemma CalcGain_spec_witness :
  CalcGain (Build_TrainParam 1 1 0 0 []) (-10) 5 =
  spec_CalcGain (Build_TrainParam 1 1 0 0 []) (-10) 5.
Proof.
  assert (Hg : ordered (-10)) by reflexivity.
  exact (proj2 (proj2 (proj2 (proj2
           (CalcGain_spec (Build_TrainParam 1 1 0 0 []) (-10) 5))))
           (or_introl Hg)).
Defined.

(** C3 as stated fails: with the default parameters ([min_child_weight = 1],
    [reg_lambda = 1], [reg_alpha = 0], [max_delta_step = 0]) and a NaN
    gradient sum, the code returns NaN, the stated formula 0. *)
Lemma CalcGain_nan_counterexample :
  let p := Build_TrainParam 1 1 0 0 [] in
  Cmp.ge (reg_lambda p) 0 = true /\ Cmp.ge (reg_alpha p) 0 = true /\
  Cmp.ge (min_child_weight p) 0 = true /\
  Cmp.lt 1 (min_child_weight p) = false /\
  Cmp.eq (max_delta_step p) 0 = true /\
  CalcGain p nan 1 = nan /\
  Sqr (ThresholdL1 nan (reg_alpha p)) / (1 + reg_lambda p) = 0 /\
  CalcGain p nan 1 <> spec_CalcGain p nan 1.
Proof.
  repeat split.
  intros H. apply (f_equal is_nan) in H. vm_compute in H. discriminate.
Qed.

(** ** [CalcWeight] *)

(** C4 (as amended).  [CalcWeight] returns 0 when
    [sum_hess < min_child_weight] or [sum_hess <= 0]; otherwise it computes
    [dw = -ThresholdL1(sum_grad, reg_alpha) / (sum_hess + reg_lambda)] if
    [reg_alpha != 0] and [dw = -sum_grad / (sum_hess + reg_lambda)] if
    [reg_alpha = 0], where [ThresholdL1(v, a)] is [v - a] if [v > a],
    [v + a] if [v < -a], and 0 otherwise; then, when [max_delta_step != 0],
    [dw] is clipped into [[-max_delta_step, max_delta_step]]; the clipped
    [dw] is returned.  The value is that of the formula of the specification
    whenever [reg_alpha != 0], or [sum_grad] is neither NaN nor the negative
    zero. *)
Theorem CalcWeight_spec p g h :
  let gate := Cmp.lt h (min_child_weight p) || Cmp.le h 0 in
  let clip dw :=
    if Cmp.ne (max_delta_step p) 0 then spec_clip (max_delta_step p) dw
    else dw in
  (gate = true -> CalcWeight p g h = 0) /\
  (gate = false -> Cmp.eq (reg_alpha p) 0 = false ->
   CalcWeight p g h =
   clip ((- ThresholdL1 g (reg_alpha p)) / (h + reg_lambda p))) /\
  (gate = false -> Cmp.eq (reg_alpha p) 0 = true ->
   CalcWeight p g h = clip ((- g) / (h + reg_lambda p))) /\
  (forall v a,
     (Cmp.gt v a = true -> ThresholdL1 v a = v - a) /\
     (Cmp.gt v a = false -> Cmp.lt v (- a) = true ->
      ThresholdL1 v a = v + a) /\
     (Cmp.gt v a = false -> Cmp.lt v (- a) = false ->
      ThresholdL1 v a = 0)) /\
  ((ordered g /\ g <> neg_zero) \/ Cmp.eq (reg_alpha p) 0 = false ->
   CalcWeight p g h = spec_CalcWeight p g h).
Proof.
  intros gate clip. subst gate clip. cbv beta.
  split; [unfold CalcWeight; now intros ->|].
  split; [unfold CalcWeight, spec_clip; now intros -> ->|].
  split; [unfold CalcWeight, spec_clip; now intros -> ->|].
  split.
  { intros v a. unfold ThresholdL1. split; [|split].
    - now intros ->.
    - now intros -> ->.
    - now intros -> ->. }
  intros H.
  unfold CalcWeight, spec_CalcWeight, spec_clip.
  destruct (Cmp.lt h (min_child_weight p) || Cmp.le h 0); [reflexivity|].
  destruct (Cmp.eq (reg_alpha p) 0) eqn:Ea; [|reflexivity].
  destruct H as [[Hg Hnz] | ?]; [|discriminate].
  now rewrite (ThresholdL1_alpha_zero g _ Ea Hg Hnz).
Qed.

Lemma CalcWeight_spec_witness :
  CalcWeight (Build_TrainParam 1 1 0 0.5 []) (-10) 5 =
  spec_CalcWeight (Build_TrainParam 1 1 0 0.5 []) (-10) 5.
Proof.
  assert (Hg : ordered (-10) /\ -10 <> neg_zero).
  { split; [reflexivity|].
    intros H. apply (f_equal is_zero) in H. vm_compute in H. discriminate. }
  exact (proj2 (proj2 (proj2 (proj2
           (CalcWeight_spec (Build_TrainParam 1 1 0 0.5 []) (-10) 5))))
           (or_introl Hg)).
Defined.

(** C4 as stated fails: with the default parameters and a NaN gradient sum
    the code returns NaN, the stated formula the negative zero. *)
Lemma CalcWeight_nan_counterexample :
  let p := Build_TrainParam 1 1 0 0 [] in
  Cmp.lt 1 (min_child_weight p) || Cmp.le 1 0 = false /\
  CalcWeight p nan 1 = nan /\
  (- ThresholdL1 nan (reg_alpha p)) / (1 + reg_lambda p) = neg_zero /\
  CalcWeight p nan 1 <> spec_CalcWeight p nan 1.
Proof.
  repeat split.
  intros H. apply (f_equal is_nan) in H. vm_compute in H. discriminate.
Qed.

(** ** Division by zero *)

(** In [CalcWeight] a hessian sum above zero and a non-negative [reg_lambda]
    make the divisor positive. *)
Lemma CalcWeight_divisor_positive p h :
  Cmp.gt h 0 = true -> Cmp.ge (reg_lambda p) 0 = true ->
  Cmp.gt (h + reg_lambda p) 0 = true /\
  Cmp.eq (h + reg_lambda p) 0 = false.
Proof.
  intros Hh Hl. pose proof (add_positive _ _ Hh Hl) as Hpos.
  split; [exact Hpos|].
  unfold Cmp.gt, Cmp.eq in *.
  destruct (h + reg_lambda p =? 0) eqn:E; [|reflexivity].
  now rewrite (ltb_eqb_r _ _ 0 E), ltb_irrefl in Hpos.
Qed.

(** In [CalcGain] the same holds once [min_child_weight] is above zero: the
    gate [sum_hess >= min_child_weight] then puts [sum_hess] above zero. *)
Lemma CalcGain_divisor_positive p h :
  Cmp.gt (min_child_weight p) 0 = true ->
  Cmp.ge h (min_child_weight p) = true ->
  Cmp.ge (reg_lambda p) 0 = true ->
  Cmp.gt (h + reg_lambda p) 0 = true.
Proof.
  intros Hm Hh Hl. apply add_positive; [|assumption].
  unfold Cmp.gt, Cmp.ge in *.
  destruct (ltb_ordered _ _ Hm) as [H0 Hmo].
  destruct (leb_ordered _ _ Hh) as [_ Hho].
  apply (ltb_lex _ _ H0 Hho).
  apply (ltb_lex _ _ H0 Hmo) in Hm. apply (leb_lex _ _ Hmo Hho) in Hh.
  unfold lex3 in *.
  destruct (frank 0) as [[a1 a2] a3], (frank h) as [[b1 b2] b3],
    (frank (min_child_weight p)) as [[c1 c2] c3]. lia.
Qed.


(** C7 (the code at the failing input).  With [min_child_weight = 0] and
    [reg_lambda = 0] a zero hessian sum passes the gate of [CalcGain], the
    divisor [sum_hess + reg_lambda] is zero, and [CalcGain] divides by it:
    the result is an infinity, or NaN for a zero gradient sum.  [CalcWeight]
    returns 0 on the same input, by its extra test [sum_hess <= 0]. *)
Theorem CalcGain_zero_hessian_divides_by_zero :
  let p := Build_TrainParam 0 0 0 0 [] in
  Cmp.ge (reg_lambda p) 0 = true /\
  Cmp.ge 0 (min_child_weight p) = true /\
  Cmp.lt 0 (min_child_weight p) = false /\
  Cmp.eq (0 + reg_lambda p) 0 = true /\
  CalcGain p 1 0 = infinity /\
  CalcGain p 0 0 = nan /\
  CalcWeight p 1 0 = 0.
Proof. repeat split. Qed.

(** ** [ValueConstraint] *)

Lemma CalcWeight_clamped c p s :
  clamped c (CalcWeightStats p s) (ValueConstraint.CalcWeight c p s).
Proof.
  unfold clamped, ValueConstraint.CalcWeight.
  set (w := CalcWeightStats p s).
  split; [|split; [|split]].
  - now intros ->.
  - now intros -> ->.
  - now intros -> ->.
  - intros Hb Hw. destruct (leb_ordered _ _ Hb) as [Hlo Hhi].
    unfold in_interval, Cmp.le, Cmp.lt, Cmp.gt in *.
    destruct (w <? lower_bound c) eqn:E1; [now rewrite leb_refl|].
    destruct (upper_bound c <? w) eqn:E2; [now rewrite leb_refl|].
    split; now apply ltb_false_leb.
Qed.

(** C5 (as amended).  [CalcSplitGain] takes [wleft] and [wright] from the
    constraint's [CalcWeight], which is the weight of the statistics rounded
    to single precision and then clamped into [[lower_bound, upper_bound]],
    and [gain] as the sum of the two [CalcGainGivenWeight] terms.  It
    returns [gain] when the direction is 0; for a positive direction [gain]
    if [wleft <= wright] and negative infinity otherwise; for a negative
    direction [gain] if [wleft >= wright] and negative infinity otherwise.
    When both double weights are single-precision numbers already, the
    result is the one obtained from the double weights clamped. *)
Theorem CalcSplitGain_spec c p constraint_direction left right :
  let dleft := CalcWeight p (sum_grad left) (sum_hess left) in
  let dright := CalcWeight p (sum_grad right) (sum_hess right) in
  let wleft := ValueConstraint.CalcWeight c p left in
  let wright := ValueConstraint.CalcWeight c p right in
  let gain :=
    CalcGainGivenWeight p (sum_grad left) (sum_hess left) wleft +
    CalcGainGivenWeight p (sum_grad right) (sum_hess right) wright in
  let ret :=
    ValueConstraint.CalcSplitGain c p constraint_direction left right in
  clamped c (to_float32 dleft) wleft /\
  clamped c (to_float32 dright) wright /\
  (constraint_direction = 0%Z -> ret = gain) /\
  ((constraint_direction > 0)%Z ->
     (Cmp.le wleft wright = true -> ret = gain) /\
     (Cmp.le wleft wright = false -> ret = neg_infinity)) /\
  ((constraint_direction < 0)%Z ->
     (Cmp.ge wleft wright = true -> ret = gain) /\
     (Cmp.ge wleft wright = false -> ret = neg_infinity)) /\
  (to_float32 dleft = dleft -> to_float32 dright = dright ->
   ret = spec_CalcSplitGain c p constraint_direction left right).
Proof.
  intros dleft dright wleft wright gain ret.
  split; [apply CalcWeight_clamped|].
  split; [apply CalcWeight_clamped|].
  assert (Hspec : to_float32 dleft = dleft -> to_float32 dright = dright ->
                  ret = spec_CalcSplitGain c p constraint_direction left right).
  { intros Hl Hr. subst ret wleft wright dleft dright.
    unfold ValueConstraint.CalcSplitGain, spec_CalcSplitGain,
      ValueConstraint.CalcWeight, spec_projected_weight, CalcWeightStats.
    now rewrite Hl, Hr. }
  assert (Hret : ret =
            if (constraint_direction =? 0)%Z then gain
            else if (constraint_direction >? 0)%Z then
              if Cmp.le wleft wright then gain else neg_infinity
            else if Cmp.ge wleft wright then gain else neg_infinity)
    by reflexivity.
  clearbody ret.
  destruct (Z.eqb_spec constraint_direction 0) as [->|Hne].
  - split; [intros _; exact Hret|].
    split; [intros; lia|]. split; [intros; lia|]. exact Hspec.
  - destruct (Z.gtb_spec constraint_direction 0) as [Hpos|Hneg].
    + split; [intros; lia|]. split; [intros _|split; [intros; lia|]].
      * rewrite Hret. split; now intros ->.
      * exact Hspec.
    + split; [intros; lia|]. split; [intros; lia|]. split; [intros _|].
      * rewrite Hret. split; now intros ->.
      * exact Hspec.
Qed.

(** At two gradient sums that differ only beyond single precision both
    weights are rounded to 1 and the split is accepted; at the gradient sums
    -10 and 10 the split is rejected; at weights that are single-precision
    numbers the result is that of the double weights. *)
Lemma CalcSplitGain_spec_witness :
  ValueConstraint.CalcSplitGain ValueConstraint.default
    (Build_TrainParam 1 0 0 0 [1%Z]) 1
    (mkGradStats (-0x1.00000004p+0) 1) (mkGradStats (-1) 1)
  = CalcGainGivenWeight (Build_TrainParam 1 0 0 0 [1%Z])
      (-0x1.00000004p+0) 1 1 +
    CalcGainGivenWeight (Build_TrainParam 1 0 0 0 [1%Z]) (-1) 1 1 /\
  ValueConstraint.CalcSplitGain ValueConstraint.default
    (Build_TrainParam 1 1 0 0 [1%Z]) 1
    (mkGradStats (-10) 5) (mkGradStats 10 5) = neg_infinity /\
  ValueConstraint.CalcSplitGain ValueConstraint.default
    (Build_TrainParam 1 0 0 0 [1%Z]) (-1)
    (mkGradStats (-10) 5) (mkGradStats 10 5)
  = spec_CalcSplitGain ValueConstraint.default
      (Build_TrainParam 1 0 0 0 [1%Z]) (-1)
      (mkGradStats (-10) 5) (mkGradStats 10 5).
Proof.
  assert (Hpos : (1 > 0)%Z) by reflexivity.
  split; [|split].
  - refine (proj1 (proj1 (proj2 (proj2 (proj2
      (CalcSplitGain_spec ValueConstraint.default
         (Build_TrainParam 1 0 0 0 [1%Z]) 1
         (mkGradStats (-0x1.00000004p+0) 1) (mkGradStats (-1) 1))))) Hpos) _).
    reflexivity.
  - refine (proj2 (proj1 (proj2 (proj2 (proj2
      (CalcSplitGain_spec ValueConstraint.default
         (Build_TrainParam 1 1 0 0 [1%Z]) 1
         (mkGradStats (-10) 5) (mkGradStats 10 5))))) Hpos) _).
    reflexivity.
  - refine (proj2 (proj2 (proj2 (proj2 (proj2
      (CalcSplitGain_spec ValueConstraint.default
         (Build_TrainParam 1 0 0 0 [1%Z]) (-1)
         (mkGradStats (-10) 5) (mkGradStats 10 5)))))) _ _);
      reflexivity.
Defined.

(** C5 as stated fails: with [reg_lambda = 0], the default constraint and
    the direction 1, the double weights of the gradient sums
    [-0x1.00000004p+0] and [-1] (hessian sums 1) are [0x1.00000004p+0] and
    [1], so that [wleft > wright] and the split is to be rejected; the code
    rounds both weights to the single-precision number 1 and returns the
    gain. *)
Lemma CalcSplitGain_narrowing_counterexample :
  let p := Build_TrainParam 1 0 0 0 [1%Z] in
  let c := ValueConstraint.default in
  let left := mkGradStats (-0x1.00000004p+0) 1 in
  let right := mkGradStats (-1) 1 in
  CalcWeight p (sum_grad left) (sum_hess left) = 0x1.00000004p+0 /\
  CalcWeight p (sum_grad right) (sum_hess right) = 1 /\
  spec_projected_weight c p left = 0x1.00000004p+0 /\
  spec_projected_weight c p right = 1 /\
  Cmp.le (spec_projected_weight c p left) (spec_projected_weight c p right)
    = false /\
  spec_CalcSplitGain c p 1 left right = neg_infinity /\
  ValueConstraint.CalcWeight c p left = 1 /\
  ValueConstraint.CalcWeight c p right = 1 /\
  ValueConstraint.CalcSplitGain c p 1 left right = 0x1.00000004p+1 /\
  ValueConstraint.CalcSplitGain c p 1 left right
    <> spec_CalcSplitGain c p 1 left right.
Proof.
  repeat split.
  intros H. apply (f_equal is_infinity) in H. vm_compute in H. discriminate.
Qed.

(** C6 (as amended).  For an index inside [monotone_constraints], of
    direction [k]: when [k = 0] both children receive exactly the parent's
    bounds.  Otherwise, with [mid = (wleft + wright) / 2] from the projected
    child weights and [mid] not NaN, a positive direction sets the left
    child's upper bound and the right child's lower bound to [mid], a
    negative direction the left child's lower bound and the right child's
    upper bound, the two other bounds being the parent's.  When [mid] is NaN
    the call fails on its check, after both children were given the parent's
    bounds. *)
Theorem SetChild_spec c p split_index left right k :
  nth_error (monotone_constraints p) (Z.to_nat split_index) = Some k ->
  let wleft := ValueConstraint.CalcWeight c p left in
  let wright := ValueConstraint.CalcWeight c p right in
  let mid := (wleft + wright) / 2 in
  let res := ValueConstraint.SetChild c p split_index left right in
  (k = 0%Z -> res = Returned c c) /\
  ((k > 0)%Z -> is_nan mid = false ->
     res = Returned (mkValueConstraint (lower_bound c) mid)
                    (mkValueConstraint mid (upper_bound c))) /\
  ((k < 0)%Z -> is_nan mid = false ->
     res = Returned (mkValueConstraint mid (upper_bound c))
                    (mkValueConstraint (lower_bound c) mid)) /\
  (k <> 0%Z -> is_nan mid = true -> res = CheckFailed c c).
Proof.
  intros Hk wleft wright mid res. subst res.
  unfold ValueConstraint.SetChild. rewrite Hk.
  fold wleft wright. fold mid.
  destruct (Z.eqb_spec k 0) as [->|Hne].
  - split; [reflexivity|].
    split; [intros; lia|]. split; [intros; lia | intros; congruence].
  - split; [intros; congruence|].
    destruct (Z.ltb_spec k 0) as [Hneg|Hpos].
    + split; [intros; lia|]. split; now intros _ ->.
    + split; [now intros _ ->|]. split; [intros; lia | now intros _ ->].
Qed.

Lemma SetChild_spec_witness :
  ValueConstraint.SetChild ValueConstraint.default
    (Build_TrainParam 1 0 0 0 [1%Z]) 0
    (mkGradStats (-2) 1) (mkGradStats (-4) 1) =
  Returned (mkValueConstraint (- DBL_MAX) 3) (mkValueConstraint 3 DBL_MAX).
Proof.
  assert (Hk : nth_error (monotone_constraints (Build_TrainParam 1 0 0 0 [1%Z]))
                 (Z.to_nat 0) = Some 1%Z) by reflexivity.
  assert (Hpos : (1 > 0)%Z) by reflexivity.
  refine (proj1 (proj2
    (SetChild_spec ValueConstraint.default (Build_TrainParam 1 0 0 0 [1%Z]) 0
       (mkGradStats (-2) 1) (mkGradStats (-4) 1) 1 Hk)) Hpos _).
  reflexivity.
Defined.

(** C6 as stated fails: for a positive direction and a left child whose
    gradient sum is NaN, [mid] is NaN and the call fails on its check; no
    bound is set to [mid]. *)
Lemma SetChild_nan_mid_counterexample :
  let p := Build_TrainParam 1 1 0 0 [1%Z] in
  let c := ValueConstraint.default in
  let left := mkGradStats nan 1 in
  let right := mkGradStats (-4) 1 in
  nth_error (monotone_constraints p) (Z.to_nat 0) = Some 1%Z /\
  (ValueConstraint.CalcWeight c p left +
   ValueConstraint.CalcWeight c p right) / 2 = nan /\
  ValueConstraint.SetChild c p 0 left right = CheckFailed c c.
Proof. repeat split. Qed.

(** C10.  [SetChild] looks the direction up with [at]: the call ends in the
    out-of-range failure exactly when [split_index] is at least the length of
    [monotone_constraints]. *)
Theorem SetChild_index_out_of_range c p split_index left right :
  (0 <= split_index)%Z ->
  ValueConstraint.SetChild c p split_index left right = OutOfRange <->
  (Z.of_nat (length (monotone_constraints p)) <= split_index)%Z.
Proof.
  intros Hi. unfold ValueConstraint.SetChild.
  destruct (nth_error (monotone_constraints p) (Z.to_nat split_index))
    as [k|] eqn:E.
  - assert (Hlt : (Z.to_nat split_index < length (monotone_constraints p))%nat)
      by (apply nth_error_Some; congruence).
    split; [|lia].
    destruct (k =? 0)%Z; [discriminate|].
    destruct (is_nan _); [discriminate|].
    destruct (k <? 0)%Z; discriminate.
  - apply nth_error_None in E. split; [lia | reflexivity].
Qed.

Lemma SetChild_index_out_of_range_witness :
  ValueConstraint.SetChild ValueConstraint.default
    (Build_TrainParam 1 1 0 0 [1%Z; 0%Z]) 2
    GradStats.default GradStats.default = OutOfRange.
Proof.
  assert (Hi : (0 <= 2)%Z) by lia.
  apply (SetChild_index_out_of_range ValueConstraint.default
           (Build_TrainParam 1 1 0 0 [1%Z; 0%Z]) 2
           GradStats.default GradStats.default Hi).
  simpl. lia.
Defined.

(** C8 (as amended).  A default-constructed constraint has
    [lower_bound = -DBL_MAX] and [upper_bound = DBL_MAX], the two finite
    doubles of largest magnitude: the next doubles below and above are the
    infinities. *)
Theorem ValueConstraint_default_bounds :
  lower_bound ValueConstraint.default = - DBL_MAX /\
  upper_bound ValueConstraint.default = DBL_MAX /\
  Prim2SF DBL_MAX = S754_finite false (2 ^ 53 - 1) 971 /\
  next_up DBL_MAX = infinity /\
  next_down (- DBL_MAX) = neg_infinity /\
  Cmp.lt neg_infinity (lower_bound ValueConstraint.default) = true /\
  Cmp.lt (upper_bound ValueConstraint.default) infinity = true.
Proof. repeat split. Qed.

(** C8 as stated fails: the default bounds are not the infinities. *)
Lemma ValueConstraint_default_not_infinite :
  lower_bound ValueConstraint.default <> neg_infinity /\
  upper_bound ValueConstraint.default <> infinity.
Proof.
  split; intros H; apply (f_equal is_infinity) in H; vm_compute in H;
    discriminate.
Qed.

(** ** [SplitEntry] *)

Import SplitEntry.

Lemma Update_eta this e :
  Update this e = if NeedReplace this (loss_chg e) (SplitIndex e)
                  then (e, true) else (this, false).
Proof. unfold Update. now destruct e. Qed.

Lemma Reduce_eta dst src :
  Reduce dst src = if NeedReplace dst (loss_chg src) (SplitIndex src)
                   then src else dst.
Proof. unfold Reduce. rewrite Update_eta. now destruct (NeedReplace _ _ _). Qed.

Lemma NeedReplace_lex a g i :
  gain_ordered a -> ordered g ->
  NeedReplace a g i = true <->
  ((SplitIndex a <= i)%Z /\ lex3 (frank (loss_chg a)) (frank g)) \/
  ((i < SplitIndex a)%Z /\ ~ lex3 (frank g) (frank (loss_chg a))).
Proof.
  intros Ha Hg. unfold NeedReplace, Cmp.gt.
  destruct (Z.leb_spec (SplitIndex a) i).
  - rewrite (ltb_lex _ _ Ha Hg). intuition lia.
  - rewrite negb_true_iff, <- not_true_iff_false, (ltb_lex _ _ Hg Ha).
    intuition lia.
Qed.

(** On records of ordered gain [Reduce] keeps the first of the best records
    of its arguments, so it is associative. *)
Lemma Reduce_assoc a b c :
  gain_ordered a -> gain_ordered b -> gain_ordered c ->
  Reduce (Reduce a b) c = Reduce a (Reduce b c).
Proof.
  intros Ha Hb Hc. rewrite !Reduce_eta.
  destruct (NeedReplace a (loss_chg b) (SplitIndex b)) eqn:Eab;
  destruct (NeedReplace b (loss_chg c) (SplitIndex c)) eqn:Ebc;
  rewrite ?Reduce_eta, ?Eab, ?Ebc; try reflexivity;
  destruct (NeedReplace a (loss_chg c) (SplitIndex c)) eqn:Eac;
  try reflexivity; exfalso;
  repeat match goal with
  | H : NeedReplace _ _ _ = true |- _ =>
      apply NeedReplace_lex in H; [|assumption..]
  | H : NeedReplace _ _ _ = false |- _ =>
      apply not_true_iff_false in H; rewrite NeedReplace_lex in H by assumption
  end;
  unfold lex3 in *;
  destruct (frank (loss_chg a)) as [[a1 a2] a3];
  destruct (frank (loss_chg b)) as [[b1 b2] b3];
  destruct (frank (loss_chg c)) as [[c1 c2] c3]; lia.
Qed.

Lemma Reduce_cases a b : Reduce a b = a \/ Reduce a b = b.
Proof. rewrite Reduce_eta. destruct (NeedReplace _ _ _); auto. Qed.

Lemma Reduce_ordered a b :
  gain_ordered a -> gain_ordered b -> gain_ordered (Reduce a b).
Proof. intros Ha Hb. destruct (Reduce_cases a b) as [-> | ->]; assumption. Qed.

Lemma reduce_fold_ordered xs : forall x,
  gain_ordered x -> Forall gain_ordered xs -> gain_ordered (reduce_fold x xs).
Proof.
  unfold reduce_fold.
  induction xs as [|y ys IH]; intros x Hx Hxs; simpl; [assumption|].
  inversion Hxs; subst. apply IH; [now apply Reduce_ordered | assumption].
Qed.

Create HintDb gain discriminated.
#[local] Hint Resolve Reduce_ordered reduce_fold_ordered : gain.

Lemma reduce_fold_cons ys : forall acc y,
  gain_ordered acc -> gain_ordered y -> Forall gain_ordered ys ->
  reduce_fold acc (y :: ys) = Reduce acc (reduce_fold y ys).
Proof.
  induction ys as [|z zs IH]; intros acc y Hacc Hy Hys; [reflexivity|].
  inversion Hys as [|? ? Hz Hzs]; subst.
  change (reduce_fold acc (y :: z :: zs))
    with (reduce_fold (Reduce acc y) (z :: zs)).
  rewrite IH by auto with gain.
  rewrite Reduce_assoc by auto with gain.
  now rewrite <- IH.
Qed.

Lemma reduce_fold_app xs : forall x y ys,
  Forall gain_ordered (x :: xs) -> Forall gain_ordered (y :: ys) ->
  reduce_fold x (xs ++ y :: ys) = Reduce (reduce_fold x xs) (reduce_fold y ys).
Proof.
  intros x y ys Hx Hy. inversion Hx; inversion Hy; subst.
  unfold reduce_fold at 1. rewrite fold_left_app.
  apply reduce_fold_cons; auto with gain.
Qed.

Lemma leaves_nonempty t : exists x xs, leaves t = x :: xs.
Proof.
  induction t as [e | l [x [xs IHl]] r _]; simpl; [now eauto|].
  rewrite IHl. simpl. eauto.
Qed.

Lemma reduce_tree_fold t : forall x xs,
  leaves t = x :: xs -> Forall gain_ordered (x :: xs) ->
  reduce_tree t = reduce_fold x xs.
Proof.
  induction t as [e | l IHl r IHr]; intros x xs Hl Hall; simpl in *.
  - now inversion Hl.
  - destruct (leaves_nonempty l) as [a [als Ha]].
    destruct (leaves_nonempty r) as [b [bs Hb]].
    rewrite Ha, Hb in Hl. simpl in Hl. inversion Hl; subst.
    assert (Forall gain_ordered (x :: als) /\ Forall gain_ordered (b :: bs))
      as [H1 H2].
    { change (x :: als ++ b :: bs) with ((x :: als) ++ b :: bs) in Hall.
      now apply Forall_app in Hall. }
    rewrite (IHl _ _ Ha H1), (IHr _ _ Hb H2).
    symmetry. now apply reduce_fold_app.
Qed.

Lemma leaves_build fuel : forall x xs,
  (length xs <= fuel)%nat -> leaves (build fuel x xs) = x :: xs.
Proof.
  induction fuel as [|f IH]; intros x xs Hlen.
  - destruct xs; [reflexivity | simpl in Hlen; lia].
  - destruct xs as [|y ys]; [reflexivity|].
    cbn [build].
    set (k := (length (x :: y :: ys) / 2)%nat).
    pose proof (firstn_skipn k (x :: y :: ys)) as Happ.
    pose proof (length_firstn k (x :: y :: ys)) as Hf.
    pose proof (length_skipn k (x :: y :: ys)) as Hs.
    assert (1 <= k <= length (y :: ys))%nat as Hk.
    { subst k. simpl length.
      pose proof (Nat.div_mod_eq (S (S (length ys))) 2).
      pose proof (Nat.mod_upper_bound (S (S (length ys))) 2). lia. }
    cbn [length] in *.
    destruct (firstn k (x :: y :: ys)) as [|l ls];
      [cbn [length] in Hf; lia|].
    destruct (skipn k (x :: y :: ys)) as [|r rs];
      [cbn [length] in Hs; lia|].
    cbn [length] in Hf, Hs. cbn [leaves].
    rewrite !IH by lia. exact Happ.
Qed.

Lemma size_leaves t : size t = length (leaves t).
Proof.
  induction t; simpl; [reflexivity|]. rewrite length_app. lia.
Qed.

Lemma balanced_build fuel : forall x xs,
  (length xs <= fuel)%nat -> balanced (build fuel x xs) = true.
Proof.
  induction fuel as [|f IH]; intros x xs Hlen.
  - destruct xs; reflexivity.
  - destruct xs as [|y ys]; [reflexivity|].
    cbn [build].
    set (k := (length (x :: y :: ys) / 2)%nat).
    pose proof (length_firstn k (x :: y :: ys)) as Hf.
    pose proof (length_skipn k (x :: y :: ys)) as Hs.
    assert (1 <= k <= length (y :: ys) /\
            k <= length (x :: y :: ys) - k <= S k)%nat as Hk.
    { subst k. simpl length.
      pose proof (Nat.div_mod_eq (S (S (length ys))) 2).
      pose proof (Nat.mod_upper_bound (S (S (length ys))) 2). lia. }
    cbn [length] in *.
    destruct (firstn k (x :: y :: ys)) as [|l ls];
      [cbn [length] in Hf; lia|].
    destruct (skipn k (x :: y :: ys)) as [|r rs];
      [cbn [length] in Hs; lia|].
    cbn [length] in Hf, Hs. cbn [balanced].
    rewrite !IH by lia.
    rewrite !size_leaves, !leaves_build by lia. cbn [length].
    rewrite !andb_true_r. apply andb_true_iff.
    split; apply Nat.leb_le; lia.
Qed.

(** C2 (as amended).  For records whose [loss_chg] is not NaN, every merge
    tree over a sequence yields the record the left-to-right fold yields, the
    same in all five fields; the balanced tree over the sequence is one such
    tree.  This holds for sequences of any length, three or more included. *)
Theorem Reduce_fold_eq_balanced_tree x xs :
  Forall gain_ordered (x :: xs) ->
  (forall t, leaves t = x :: xs -> reduce_tree t = reduce_fold x xs) /\
  balanced (balanced_tree x xs) = true /\
  leaves (balanced_tree x xs) = x :: xs /\
  reduce_tree (balanced_tree x xs) = reduce_fold x xs.
Proof.
  intros Hall. unfold balanced_tree.
  split; [intros t Ht; now apply reduce_tree_fold|].
  split; [now apply balanced_build|].
  split; [now apply leaves_build|].
  apply reduce_tree_fold; [now apply leaves_build | assumption].
Qed.

Lemma Reduce_fold_eq_balanced_tree_witness :
  let d := GradStats.default in
  let x := mkSplitEntry 1 5 0 d d in
  let y := mkSplitEntry 1 3 0 d d in
  let z := mkSplitEntry 2 7 0 d d in
  reduce_tree (balanced_tree x [y; z; y]) = reduce_fold x [y; z; y].
Proof.
  intros d x y z.
  assert (Hall : Forall gain_ordered [x; y; z; y]) by (repeat constructor).
  exact (proj2 (proj2 (proj2
           (Reduce_fold_eq_balanced_tree x [y; z; y] Hall)))).
Defined.

(** C2 as stated fails on a NaN [loss_chg]: over the four records [x; x; y; z]
    with [x] of NaN gain at feature 5, [y] of gain 1 at feature 3 and [z] of
    gain 2 at feature 7, the balanced tree ends with [x] and the fold with
    [z]. *)
Lemma Reduce_tree_order_counterexample :
  let d := GradStats.default in
  let x := mkSplitEntry nan 5 0 d d in
  let y := mkSplitEntry 1 3 0 d d in
  let z := mkSplitEntry 2 7 0 d d in
  balanced_tree x [x; y; z] =
    Node (Node (Leaf x) (Leaf x)) (Node (Leaf y) (Leaf z)) /\
  reduce_tree (balanced_tree x [x; y; z]) = x /\
  reduce_fold x [x; y; z] = z /\
  reduce_tree (balanced_tree x [x; y; z]) <> reduce_fold x [x; y; z].
Proof.
  intros d x y z.
  assert (Ht : reduce_tree (balanced_tree x [x; y; z]) = x) by reflexivity.
  assert (Hf : reduce_fold x [x; y; z] = z) by reflexivity.
  repeat split; try assumption; try reflexivity.
  rewrite Ht, Hf. intros H. apply (f_equal sindex) in H. discriminate.
Qed.

(** ** The tie-break of [NeedReplace] *)

Lemma NeedReplace_eqb r g g' i :
  (g =? g') = true -> NeedReplace r g i = NeedReplace r g' i.
Proof.
  intros H. unfold NeedReplace, Cmp.gt.
  now rewrite (ltb_eqb_r _ _ _ H), (ltb_eqb_l _ _ _ H).
Qed.

Lemma NeedReplace_lower_index r g i j :
  (i < j)%Z -> NeedReplace r g j = true -> NeedReplace r g i = true.
Proof.
  unfold NeedReplace, Cmp.gt. intros Hij.
  destruct (Z.leb_spec (SplitIndex r) j), (Z.leb_spec (SplitIndex r) i);
    try lia; try tauto.
  intros Hgt. now rewrite (ltb_asym _ _ Hgt).
Qed.

Lemma NeedReplace_tie_higher a b :
  (loss_chg a =? loss_chg b) = true -> (SplitIndex a < SplitIndex b)%Z ->
  NeedReplace a (loss_chg b) (SplitIndex b) = false /\
  NeedReplace b (loss_chg a) (SplitIndex a) = true.
Proof.
  intros Heq Hlt. unfold NeedReplace, Cmp.gt.
  destruct (Z.leb_spec (SplitIndex a) (SplitIndex b)); [|lia].
  destruct (Z.leb_spec (SplitIndex b) (SplitIndex a)); [lia|].
  rewrite (ltb_eqb_l _ _ _ Heq), ltb_irrefl. auto.
Qed.

(** C1 (as amended).  [NeedReplace(g, i)] holds exactly when
    [SplitIndex() <= i] and [g > loss_chg], or [SplitIndex() > i] and
    [loss_chg] is not greater than [g].  For two candidates [a] and [b] of
    equal [loss_chg], [a] of the smaller feature index, presented to a record
    [r] in either order: the final record is the same in both orders; it is
    [a] as soon as one of the two replaces [r], in particular when their gain
    is greater than the [loss_chg] of [r]; otherwise it is [r], unchanged. *)
Theorem NeedReplace_tie_break r a b g i :
  (loss_chg a =? loss_chg b) = true ->
  (SplitIndex a < SplitIndex b)%Z ->
  let ab := fst (Update (fst (Update r a)) b) in
  let ba := fst (Update (fst (Update r b)) a) in
  (NeedReplace r g i = true <->
     (SplitIndex r <= i)%Z /\ Cmp.gt g (loss_chg r) = true \/
     (SplitIndex r > i)%Z /\ Cmp.gt (loss_chg r) g = false) /\
  ab = ba /\
  (snd (Update r a) = true \/ snd (Update r b) = true -> ab = a) /\
  (snd (Update r a) = false -> ab = r) /\
  (Cmp.gt (loss_chg a) (loss_chg r) = true -> ab = a).
Proof.
  intros Heq Hlt ab ba.
  destruct (NeedReplace_tie_higher a b Heq Hlt) as [Hab Hba].
  assert (Hmono : NeedReplace r (loss_chg b) (SplitIndex b) = true ->
                  NeedReplace r (loss_chg a) (SplitIndex a) = true).
  { rewrite <- (NeedReplace_eqb r _ _ _ Heq).
    now apply NeedReplace_lower_index. }
  split.
  { unfold NeedReplace.
    destruct (Z.leb_spec (SplitIndex r) i); rewrite ?negb_true_iff;
      intuition lia. }
  subst ab ba. rewrite !Update_eta.
  destruct (NeedReplace r (loss_chg a) (SplitIndex a)) eqn:Ea;
  destruct (NeedReplace r (loss_chg b) (SplitIndex b)) eqn:Eb;
  cbn [fst snd]; rewrite ?Update_eta, ?Hab, ?Hba, ?Ea, ?Eb; cbn [fst snd];
  try (specialize (Hmono eq_refl); discriminate).
  - repeat split; intros; congruence.
  - repeat split; intros; congruence.
  - repeat split; try discriminate; try (intros [?|?]; discriminate).
    intros Hgt. exfalso. unfold NeedReplace, Cmp.gt in Ea.
    destruct (SplitIndex r <=? SplitIndex a)%Z.
    + unfold Cmp.gt in Hgt. congruence.
    + unfold Cmp.gt in Hgt. rewrite (ltb_asym _ _ Hgt) in Ea. discriminate.
Qed.

Lemma NeedReplace_tie_break_witness :
  let d := GradStats.default in
  let r := mkSplitEntry 0 0 0 d d in
  let a := mkSplitEntry 1 3 0.5 d d in
  let b := mkSplitEntry 1 4 0.25 d d in
  fst (Update (fst (Update r a)) b) = fst (Update (fst (Update r b)) a).
Proof.
  intros d r a b.
  assert (Heq : (loss_chg a =? loss_chg b) = true) by reflexivity.
  assert (Hlt : (SplitIndex a < SplitIndex b)%Z) by reflexivity.
  exact (proj1 (proj2 (NeedReplace_tie_break r a b 1 3 Heq Hlt))).
Defined.

(** C1 as stated fails: a record of gain 2 at feature 7 keeps its index when
    two candidates of gain 1 at features 3 and 4 are presented, in either
    order. *)
Lemma tie_break_counterexample :
  let d := GradStats.default in
  let r := mkSplitEntry 2 7 0 d d in
  let a := mkSplitEntry 1 3 0 d d in
  let b := mkSplitEntry 1 4 0 d d in
  (loss_chg a =? loss_chg b) = true /\
  SplitIndex a <> SplitIndex b /\
  SplitIndex (fst (Update (fst (Update r a)) b)) <>
    Z.min (SplitIndex a) (SplitIndex b) /\
  SplitIndex (fst (Update (fst (Update r b)) a)) <>
    Z.min (SplitIndex a) (SplitIndex b).
Proof. vm_compute. repeat split; discriminate. Qed.

(** ** The packed index field *)

Lemma land_low31 i : (0 <= i < 2 ^ 31)%Z -> Z.land i (Z.shiftl 1 31 - 1) = i.
Proof.
  intros Hi. change (Z.shiftl 1 31 - 1)%Z with (Z.ones 31).
  rewrite Z.land_ones by lia. apply Z.mod_small. lia.
Qed.

Lemma shiftr_low31 i : (0 <= i < 2 ^ 31)%Z -> Z.shiftr i 31 = 0%Z.
Proof.
  intros Hi. rewrite Z.shiftr_div_pow2 by lia. apply Z.div_small. lia.
Qed.

(** C9.  After a raw-field [Update] with a feature index below [2^31] that
    replaces the record, [SplitIndex()] is that index and [DefaultLeft()]
    the flag passed: the flag is bit 31 of [sindex], the index its bits 0 to
    30, and [sindex] fits 32 bits. *)
Theorem UpdateRaw_packs_index_and_flag this g i v dl ls rs :
  (0 <= i < 2 ^ 31)%Z ->
  snd (UpdateRaw this g i v dl ls rs) = true ->
  let e := fst (UpdateRaw this g i v dl ls rs) in
  SplitIndex e = i /\ DefaultLeft e = dl /\
  Z.testbit (sindex e) 31 = dl /\
  Z.land (sindex e) (Z.ones 31) = i /\
  (0 <= sindex e < 2 ^ 32)%Z.
Proof.
  intros Hi. unfold UpdateRaw.
  destruct (NeedReplace this g i); [intros _ | discriminate].
  cbn [fst]. unfold SplitIndex, DefaultLeft. cbn [sindex].
  change (Z.ones 31) with (Z.shiftl 1 31 - 1)%Z.
  destruct dl.
  - assert (Hland : Z.land (Z.lor i (Z.shiftl 1 31)) (Z.shiftl 1 31 - 1) = i).
    { rewrite Z.land_lor_distr_l, (land_low31 i Hi).
      change (Z.land (Z.shiftl 1 31) (Z.shiftl 1 31 - 1)) with 0%Z.
      apply Z.lor_0_r. }
    assert (Hshr : Z.shiftr (Z.lor i (Z.shiftl 1 31)) 31 = 1%Z).
    { rewrite Z.shiftr_lor, (shiftr_low31 i Hi). reflexivity. }
    assert (Hrange : (0 <= Z.lor i (Z.shiftl 1 31) < 2 ^ 32)%Z).
    { assert (Hnn : (0 <= Z.lor i (Z.shiftl 1 31))%Z)
        by (apply Z.lor_nonneg; split; [lia | discriminate]).
      split; [exact Hnn|].
      assert (Hpos : (0 < Z.lor i (Z.shiftl 1 31))%Z).
      { destruct (Z.eq_dec (Z.lor i (Z.shiftl 1 31)) 0) as [E|]; [|lia].
        apply Z.lor_eq_0_iff in E. destruct E as [_ E]. discriminate. }
      apply Z.log2_lt_pow2; [exact Hpos|].
      rewrite Z.log2_lor by (try lia; discriminate).
      change (Z.log2 (Z.shiftl 1 31)) with 31%Z.
      destruct (Z.eq_dec i 0) as [->|]; [simpl; lia|].
      assert (Z.log2 i < 31)%Z by (apply Z.log2_lt_pow2; lia). lia. }
    rewrite Hland, Hshr. repeat split; try reflexivity; try lia.
    rewrite Z.lor_spec. apply orb_true_r.
  - rewrite (land_low31 i Hi), (shiftr_low31 i Hi).
    repeat split; try reflexivity; try lia.
    apply Z.testbit_false; [lia|]. now rewrite Z.div_small by lia.
Qed.

Lemma UpdateRaw_packs_index_and_flag_witness :
  let d := GradStats.default in
  let e := fst (UpdateRaw default 1 5 0.5 true d d) in
  SplitIndex e = 5%Z /\ DefaultLeft e = true.
Proof.
  intros d e.
  assert (Hi : (0 <= 5 < 2 ^ 31)%Z) by lia.
  assert (Hr : snd (UpdateRaw default 1 5 0.5 true d d) = true)
    by reflexivity.
  destruct (UpdateRaw_packs_index_and_flag default 1 5 0.5 true d d Hi Hr)
    as (H1 & H2 & _).
  split; assumption.
Defined.

(** * Further properties *)

(** ** [SplitEntry]: what [Update] and [Reduce] keep *)

(** X1.  Presenting a candidate a second time changes nothing: the second
    [Update] with the same candidate returns [false] and leaves the record as
    the first left it.  This holds for every [loss_chg], NaN included. *)
Theorem Update_idempotent r e :
  Update (fst (Update r e)) e = (fst (Update r e), false).
Proof.
  rewrite !Update_eta.
  destruct (NeedReplace r (loss_chg e) (SplitIndex e)) eqn:E; cbn [fst].
  - unfold NeedReplace, Cmp.gt. rewrite Z.leb_refl, ltb_irrefl. reflexivity.
  - now rewrite E.
Qed.

(** X2.  [Update] never lowers the stored gain: the [loss_chg] of the record
    afterwards is not less than before, for every candidate and every
    [loss_chg], NaN included. *)
Theorem Update_never_lowers_loss_chg r e :
  Cmp.lt (loss_chg (fst (Update r e))) (loss_chg r) = false.
Proof.
  rewrite Update_eta. unfold Cmp.lt.
  destruct (NeedReplace r (loss_chg e) (SplitIndex e)) eqn:E; cbn [fst].
  - unfold NeedReplace, Cmp.gt in E.
    destruct (SplitIndex r <=? SplitIndex e)%Z.
    + now apply ltb_asym.
    + now apply negb_true_iff in E.
  - apply ltb_irrefl.
Qed.

Lemma NeedReplace_self e : NeedReplace e (loss_chg e) (SplitIndex e) = false.
Proof. unfold NeedReplace, Cmp.gt. now rewrite Z.leb_refl, ltb_irrefl. Qed.

Ltac by_rank :=
  repeat match goal with
  | H : NeedReplace _ _ _ = true |- _ =>
      apply NeedReplace_lex in H; [|assumption..]
  | H : NeedReplace _ _ _ = false |- _ =>
      apply not_true_iff_false in H; rewrite NeedReplace_lex in H by assumption
  | |- NeedReplace _ _ _ = true => apply NeedReplace_lex; [assumption..|]
  | |- NeedReplace _ _ _ = false =>
      apply not_true_iff_false; rewrite NeedReplace_lex by assumption
  end;
  unfold lex3 in *;
  repeat match goal with
  | |- context [frank ?x] =>
      let a := fresh "a" in let b := fresh "b" in let c := fresh "c" in
      destruct (frank x) as [[a b] c]
  | H : context [frank ?x] |- _ =>
      let a := fresh "a" in let b := fresh "b" in let c := fresh "c" in
      destruct (frank x) as [[a b] c]
  end;
  try lia.

(** X3.  Two records of ordered gain and different feature indices merge to
    the same record whichever of them is the destination. *)
Theorem Reduce_comm_distinct_index a b :
  gain_ordered a -> gain_ordered b -> SplitIndex a <> SplitIndex b ->
  Reduce a b = Reduce b a.
Proof.
  intros Ha Hb Hne. rewrite !Reduce_eta.
  destruct (NeedReplace a (loss_chg b) (SplitIndex b)) eqn:Eab;
  destruct (NeedReplace b (loss_chg a) (SplitIndex a)) eqn:Eba;
    try reflexivity; exfalso; by_rank.
Qed.

Lemma Reduce_comm_distinct_index_witness :
  let d := GradStats.default in
  Reduce (mkSplitEntry 1 3 0 d d) (mkSplitEntry 1 2 0.5 d d) =
  Reduce (mkSplitEntry 1 2 0.5 d d) (mkSplitEntry 1 3 0 d d).
Proof.
  intros d.
  apply (Reduce_comm_distinct_index
           (mkSplitEntry 1 3 0 d d) (mkSplitEntry 1 2 0.5 d d));
    [reflexivity | reflexivity | vm_compute; discriminate].
Defined.

Lemma NeedReplace_Reduce_stable a b e :
  gain_ordered a -> gain_ordered b -> gain_ordered e ->
  NeedReplace a (loss_chg e) (SplitIndex e) = false ->
  NeedReplace (Reduce a b) (loss_chg e) (SplitIndex e) = false.
Proof.
  intros Ha Hb He H. rewrite Reduce_eta.
  destruct (NeedReplace a (loss_chg b) (SplitIndex b)) eqn:Eab;
    [|assumption].
  by_rank.
Qed.

Lemma NeedReplace_Reduce_arg a b :
  NeedReplace (Reduce a b) (loss_chg b) (SplitIndex b) = false.
Proof.
  rewrite Reduce_eta.
  destruct (NeedReplace a (loss_chg b) (SplitIndex b)) eqn:Eab;
    [apply NeedReplace_self | assumption].
Qed.

Lemma reduce_fold_In xs : forall x, In (reduce_fold x xs) (x :: xs).
Proof.
  unfold reduce_fold.
  induction xs as [|y ys IH]; intros x; cbn [fold_left]; [now left|].
  destruct (IH (Reduce x y)) as [H | H]; [|now right; right].
  destruct (Reduce_cases x y) as [E | E];
    [left | right; left]; congruence.
Qed.

Lemma fold_unbeaten_stable ys : forall acc e,
  gain_ordered acc -> Forall gain_ordered ys -> gain_ordered e ->
  NeedReplace acc (loss_chg e) (SplitIndex e) = false ->
  NeedReplace (fold_left Reduce ys acc) (loss_chg e) (SplitIndex e) = false.
Proof.
  induction ys as [|y ys IH]; intros acc e Hacc Hys He H; cbn [fold_left];
    [assumption|].
  inversion Hys; subst.
  apply IH; auto using Reduce_ordered, NeedReplace_Reduce_stable.
Qed.

Lemma fold_unbeaten_tail ys : forall acc e,
  gain_ordered acc -> Forall gain_ordered ys -> In e ys ->
  NeedReplace (fold_left Reduce ys acc) (loss_chg e) (SplitIndex e) = false.
Proof.
  induction ys as [|y ys IH]; intros acc e Hacc Hys Hin; [destruct Hin|].
  inversion Hys; subst. cbn [fold_left].
  destruct Hin as [<- | Hin].
  - apply fold_unbeaten_stable;
      auto using Reduce_ordered, NeedReplace_Reduce_arg.
  - apply IH; auto using Reduce_ordered.
Qed.

Lemma reduce_fold_unbeaten x xs e :
  Forall gain_ordered (x :: xs) -> In e (x :: xs) ->
  NeedReplace (reduce_fold x xs) (loss_chg e) (SplitIndex e) = false.
Proof.
  intros Hall Hin. inversion Hall; subst. unfold reduce_fold.
  destruct Hin as [<- | Hin].
  - apply fold_unbeaten_stable; auto using NeedReplace_self.
  - now apply fold_unbeaten_tail.
Qed.

(** X4.  Over records of ordered gain the left fold of [Reduce] selects a
    record of the sequence that no other beats: no record has a greater
    [loss_chg], and every record of equal [loss_chg] has a feature index at
    least as large. *)
Theorem reduce_fold_selects_best x xs :
  Forall gain_ordered (x :: xs) ->
  In (reduce_fold x xs) (x :: xs) /\
  forall e, In e (x :: xs) ->
    Cmp.gt (loss_chg e) (loss_chg (reduce_fold x xs)) = false /\
    (Cmp.eq (loss_chg e) (loss_chg (reduce_fold x xs)) = true ->
     (SplitIndex (reduce_fold x xs) <= SplitIndex e)%Z).
Proof.
  intros Hall. split; [apply reduce_fold_In|].
  intros e Hin.
  pose proof (reduce_fold_unbeaten x xs e Hall Hin) as H.
  unfold NeedReplace, Cmp.gt, Cmp.eq in *.
  destruct (Z.leb_spec (SplitIndex (reduce_fold x xs)) (SplitIndex e))
    as [Hle | Hgt].
  - split; [assumption | intros; assumption].
  - apply negb_false_iff in H. split; [now apply ltb_asym|].
    intros Heq. rewrite (ltb_eqb_l _ _ _ Heq), ltb_irrefl in H.
    discriminate.
Qed.

Lemma reduce_fold_selects_best_witness :
  let d := GradStats.default in
  let x := mkSplitEntry 1 5 0 d d in
  let y := mkSplitEntry 2 7 0 d d in
  let z := mkSplitEntry 2 3 0 d d in
  In (reduce_fold x [y; z]) [x; y; z].
Proof.
  intros d x y z.
  assert (Hall : Forall gain_ordered [x; y; z]) by (repeat constructor).
  exact (proj1 (reduce_fold_selects_best x [y; z] Hall)).
Defined.

Lemma NoDup_map_In_inj {A B : Type} (f : A -> B) (l : list A) a b :
  NoDup (map f l) -> In a l -> In b l -> f a = f b -> a = b.
Proof.
  induction l as [|c l IH]; intros Hnd Ha Hb Hf; [destruct Ha|].
  cbn [map] in Hnd. inversion Hnd as [|? ? Hnotin Hnd']; subst.
  destruct Ha as [<- | Ha], Hb as [<- | Hb].
  - reflexivity.
  - exfalso. apply Hnotin. rewrite Hf. now apply in_map.
  - exfalso. apply Hnotin. rewrite <- Hf. now apply in_map.
  - now apply IH.
Qed.

(** X5.  For records of ordered gain and pairwise different feature indices
    the result of the fold does not depend on the order of the sequence:
    any rearrangement folds to the same record. *)
Theorem reduce_fold_permutation x xs y ys :
  Forall gain_ordered (x :: xs) ->
  NoDup (map SplitIndex (x :: xs)) ->
  Permutation (x :: xs) (y :: ys) ->
  reduce_fold x xs = reduce_fold y ys.
Proof.
  intros Hall Hnd Hperm.
  assert (Hall' : Forall gain_ordered (y :: ys))
    by (eapply Permutation_Forall; eassumption).
  set (a := reduce_fold x xs). set (b := reduce_fold y ys).
  assert (Ha : In a (x :: xs)) by apply reduce_fold_In.
  assert (Hb : In b (x :: xs)).
  { eapply Permutation_in; [apply Permutation_sym; eassumption|].
    apply reduce_fold_In. }
  assert (Hab : NeedReplace a (loss_chg b) (SplitIndex b) = false)
    by (apply reduce_fold_unbeaten; assumption).
  assert (Hba : NeedReplace b (loss_chg a) (SplitIndex a) = false).
  { apply reduce_fold_unbeaten; [assumption|].
    eapply Permutation_in; eassumption. }
  pose proof (proj1 (Forall_forall gain_ordered (x :: xs)) Hall) as Hord.
  assert (Hoa : gain_ordered a) by (apply Hord; assumption).
  assert (Hob : gain_ordered b) by (apply Hord; assumption).
  apply (NoDup_map_In_inj SplitIndex (x :: xs)); try assumption.
  destruct (Z.eq_dec (SplitIndex a) (SplitIndex b)) as [|Hne];
    [assumption|].
  exfalso. by_rank.
Qed.

Lemma reduce_fold_permutation_witness :
  let d := GradStats.default in
  let x := mkSplitEntry 1 5 0 d d in
  let y := mkSplitEntry 2 7 0 d d in
  let z := mkSplitEntry 2 3 0 d d in
  reduce_fold x [y; z] = reduce_fold z [x; y].
Proof.
  intros d x y z.
  assert (Hall : Forall gain_ordered [x; y; z]) by (repeat constructor).
  assert (Hnd : NoDup (map SplitIndex [x; y; z])).
  { repeat constructor; cbn; intuition discriminate. }
  assert (Hperm : Permutation [x; y; z] [z; x; y]).
  { apply Permutation_sym.
    apply (Permutation_cons_app [x; y] [] z). apply Permutation_refl. }
  exact (reduce_fold_permutation x [y; z] z [x; y] Hall Hnd Hperm).
Defined.

(** ** The packed index field, continued *)

(** X6.  A 32-bit [sindex] is recovered from its two accessors: it is
    [SplitIndex()] plus [2^31] when [DefaultLeft()] holds, and [SplitIndex()]
    is below [2^31]. *)
Theorem sindex_decomposes e :
  (0 <= sindex e < 2 ^ 32)%Z ->
  (0 <= SplitIndex e < 2 ^ 31)%Z /\
  sindex e = (SplitIndex e + (if DefaultLeft e then 2 ^ 31 else 0))%Z.
Proof.
  intros Hs. unfold SplitIndex, DefaultLeft.
  change (Z.shiftl 1 31 - 1)%Z with (Z.ones 31).
  rewrite Z.land_ones, Z.shiftr_div_pow2 by lia.
  pose proof (Z.div_mod (sindex e) (2 ^ 31) ltac:(lia)) as Hdm.
  pose proof (Z.mod_pos_bound (sindex e) (2 ^ 31) ltac:(lia)) as Hm.
  assert (Hq : (0 <= sindex e / 2 ^ 31 < 2)%Z).
  { split; [apply Z.div_pos; lia|].
    apply Z.div_lt_upper_bound; lia. }
  split; [assumption|].
  destruct (Z.eqb_spec (sindex e / 2 ^ 31) 0) as [E | E]; cbn [negb]; lia.
Qed.

Lemma sindex_decomposes_witness :
  let d := GradStats.default in
  sindex (mkSplitEntry 1 (2 ^ 31 + 9) 0 d d) =
  (SplitIndex (mkSplitEntry 1 (2 ^ 31 + 9) 0 d d) +
   (if DefaultLeft (mkSplitEntry 1 (2 ^ 31 + 9) 0 d d) then 2 ^ 31 else 0))%Z.
Proof.
  intros d.
  assert (Hs : (0 <= sindex (mkSplitEntry 1 (2 ^ 31 + 9) 0 d d) < 2 ^ 32)%Z)
    by (cbn [sindex]; lia).
  exact (proj2 (sindex_decomposes (mkSplitEntry 1 (2 ^ 31 + 9) 0 d d) Hs)).
Defined.

(** X7.  A raw-field [Update] with a feature index of [2^31] or more that
    replaces the record loses the flag: whatever [default_left] was passed,
    [DefaultLeft()] is true afterwards and [SplitIndex()] is the index minus
    [2^31]. *)
Theorem UpdateRaw_index_overflows_into_flag this g i v dl ls rs :
  (2 ^ 31 <= i < 2 ^ 32)%Z ->
  snd (UpdateRaw this g i v dl ls rs) = true ->
  DefaultLeft (fst (UpdateRaw this g i v dl ls rs)) = true /\
  SplitIndex (fst (UpdateRaw this g i v dl ls rs)) = (i - 2 ^ 31)%Z.
Proof.
  intros Hi. unfold UpdateRaw.
  destruct (NeedReplace this g i); [intros _ | discriminate].
  cbn [fst]. unfold SplitIndex, DefaultLeft. cbn [sindex].
  change (Z.shiftl 1 31 - 1)%Z with (Z.ones 31).
  assert (Hq : (i / 2 ^ 31 = 1)%Z).
  { symmetry. apply (Z.div_unique i (2 ^ 31) 1 (i - 2 ^ 31)); lia. }
  assert (Hm : (i mod 2 ^ 31 = i - 2 ^ 31)%Z).
  { symmetry. apply (Z.mod_unique i (2 ^ 31) 1 (i - 2 ^ 31)); lia. }
  destruct dl.
  - rewrite Z.land_lor_distr_l, Z.shiftr_lor.
    rewrite Z.land_ones, Z.shiftr_div_pow2, Hq, Hm by lia.
    change (Z.land (Z.shiftl 1 31) (Z.ones 31)) with 0%Z.
    rewrite Z.lor_0_r. split; reflexivity.
  - rewrite Z.land_ones, Z.shiftr_div_pow2, Hq, Hm by lia.
    split; reflexivity.
Qed.

Lemma UpdateRaw_index_overflows_into_flag_witness :
  let d := GradStats.default in
  DefaultLeft (fst (UpdateRaw default 1 (2 ^ 31 + 4) 0 false d d)) = true /\
  SplitIndex (fst (UpdateRaw default 1 (2 ^ 31 + 4) 0 false d d)) =
    (2 ^ 31 + 4 - 2 ^ 31)%Z.
Proof.
  intros d.
  assert (Hi : (2 ^ 31 <= 2 ^ 31 + 4 < 2 ^ 32)%Z) by lia.
  assert (Hr : snd (UpdateRaw default 1 (2 ^ 31 + 4) 0 false d d) = true)
    by reflexivity.
  exact (UpdateRaw_index_overflows_into_flag
           default 1 (2 ^ 31 + 4) 0 false d d Hi Hr).
Defined.

(** X20.  With a NaN on either side the index alone decides: a candidate of
    NaN gain, or any candidate presented to a record of NaN [loss_chg],
    replaces the record exactly when its feature index is the smaller
    one. *)
Theorem NeedReplace_NaN_decided_by_index r g i :
  is_nan g = true \/ is_nan (loss_chg r) = true ->
  NeedReplace r g i = negb (SplitIndex r <=? i)%Z.
Proof.
  intros H. unfold NeedReplace, Cmp.gt.
  destruct (SplitIndex r <=? i)%Z; cbn [negb]; destruct H as [H | H];
    rewrite ?(ltb_nan_l _ _ H), ?(ltb_nan_r _ _ H); reflexivity.
Qed.

Lemma NeedReplace_NaN_decided_by_index_witness :
  let d := GradStats.default in
  NeedReplace (mkSplitEntry 100 7 0 d d) nan 3 = true.
Proof.
  intros d.
  exact (NeedReplace_NaN_decided_by_index (mkSplitEntry 100 7 0 d d) nan 3
           (or_introl eq_refl)).
Defined.

(** ** More arithmetic of doubles *)

Module FloatArith.

Lemma rank_SFopp x : rank (SFopp x) = neg3 (rank x).
Proof.
  destruct x as [[]|[]| |[] m e]; cbn; rewrite ?Z.opp_involutive;
    reflexivity.
Qed.

Lemma frank_opp x : frank (- x) = neg3 (frank x).
Proof. unfold frank. now rewrite opp_spec, rank_SFopp. Qed.

Lemma ordered_opp x : ordered x -> ordered (- x).
Proof.
  rewrite !ordered_Prim2SF, opp_spec.
  now destruct (Prim2SF x) as [[]|[]| |[] m e].
Qed.

Lemma frank_zero : frank 0 = (0, 0, 0)%Z.
Proof. reflexivity. Qed.

Lemma SFadd_comm x y : SF64add x y = SF64add y x.
Proof.
  destruct x as [[]|[]| |sx mx ex], y as [[]|[]| |sy my ey];
    try reflexivity.
  unfold SF64add, SFadd. now rewrite (Z.min_comm ex ey), Z.add_comm.
Qed.

Lemma add_comm x y : x + y = y + x.
Proof. apply Prim2SF_inj. rewrite !add_spec. apply SFadd_comm. Qed.

Lemma sub_zero x : x - 0 = x.
Proof.
  apply Prim2SF_inj. rewrite sub_spec.
  change (Prim2SF 0) with (S754_zero false).
  now destruct (Prim2SF x) as [[]|[]| |[] m e].
Qed.

Lemma SFsub_diag s m e :
  SF64sub (S754_finite s m e) (S754_finite s m e) = S754_zero false.
Proof.
  unfold SF64sub, SFsub. now rewrite Z.sub_diag.
Qed.

(** A positive bound lies above its opposite, and zero between them. *)
Lemma positive_bound m :
  (0 <? m) = true ->
  (m <? - m) = false /\ (m <? 0) = false /\ (0 <? - m) = false /\
  (m =? 0) = false.
Proof.
  intros Hm. destruct (ltb_ordered _ _ Hm) as [H0 Ho].
  pose proof (ordered_opp m Ho) as Hno.
  pose proof (ltb_asym _ _ Hm) as Hasym.
  apply (ltb_lex _ _ H0 Ho) in Hm. rewrite frank_zero in Hm.
  repeat split; try assumption.
  - apply not_true_iff_false. rewrite (ltb_lex _ _ Ho Hno), frank_opp.
    unfold lex3, neg3 in *. destruct (frank m) as [[a b] c]. lia.
  - apply not_true_iff_false. rewrite (ltb_lex _ _ H0 Hno), frank_opp.
    rewrite frank_zero.
    unfold lex3, neg3 in *. destruct (frank m) as [[a b] c]. lia.
  - apply not_true_iff_false. rewrite (eqb_lex _ _ Ho H0), frank_zero.
    unfold lex3 in *. destruct (frank m) as [[a b] c].
    intros [= -> -> ->]. lia.
Qed.

Lemma leb_total x y :
  ordered x -> ordered y -> (x <=? y) = true \/ (y <=? x) = true.
Proof.
  intros Hx Hy. rewrite (leb_lex _ _ Hx Hy), (leb_lex _ _ Hy Hx).
  unfold lex3. destruct (frank x) as [[a b] c], (frank y) as [[a' b'] c'].
  lia.
Qed.

End FloatArith.

(** ** Rounding a non-negative mantissa *)

Module RoundNonneg.

Local Open Scope Z_scope.

Lemma shr_fexp_nonneg m e l :
  0 <= m -> 0 <= shr_m (fst (shr_fexp prec emax m e l)).
Proof.
  intros Hm. unfold shr_fexp, shr.
  destruct (fexp prec emax (Zdigits2 m + e) - e) as [|n|n]; cbn [fst];
    rewrite ?RoundPositive.iter_shr_1_m;
    rewrite ?RoundPositive.shr_record_of_loc_m; try assumption.
  apply Z.div_pos; [assumption | apply Z.pow_pos_nonneg; lia].
Qed.

Lemma round_nearest_even_nonneg m l : 0 <= m -> 0 <= round_nearest_even m l.
Proof.
  intros Hm. unfold round_nearest_even.
  destruct l as [|[]]; try lia. destruct (Z.even m); lia.
Qed.

Lemma binary_round_aux_nonneg m e l :
  0 <= m -> nonneg_SF (binary_round_aux prec emax false m e l).
Proof.
  intros Hm. unfold binary_round_aux.
  pose proof (shr_fexp_nonneg m e l Hm) as H1.
  destruct (shr_fexp prec emax m e l) as [r1 e1]. cbn [fst] in H1.
  pose proof (round_nearest_even_nonneg _ (loc_of_shr_record r1) H1) as H2.
  pose proof (shr_fexp_nonneg _ e1 loc_Exact H2) as H3.
  destruct (shr_fexp prec emax _ e1 loc_Exact) as [r2 e2]. cbn [fst] in H3.
  destruct (shr_m r2) as [|m3|m3]; try lia; [exact I|].
  now destruct (e2 <=? emax - prec).
Qed.

Lemma SFmul_self_nonneg x :
  x <> S754_nan -> nonneg_SF (SF64mul x x) .
Proof.
  intros Hx. destruct x as [[]|[]| |s m e]; try congruence; try exact I.
  unfold SF64mul, SFmul. rewrite xorb_nilpotent.
  apply binary_round_aux_nonneg. lia.
Qed.

Lemma SFdiv_nonneg x y :
  nonneg_SF x -> positive_SF y ->
  nonneg_SF (SF64div x y) \/ SF64div x y = S754_nan.
Proof.
  intros Hx Hy.
  destruct x as [[]|[]| |[] mx ex]; try contradiction;
  destruct y as [[]|[]| |[] my ey]; try contradiction;
    try (left; exact I); try (right; reflexivity).
  left. unfold SF64div, SFdiv, SFdiv_core_binary.
  set (m' := match _ with Zpos _ => _ | Z0 => _ | Zneg _ => _ end).
  assert (Hm' : 0 <= m').
  { subst m'. destruct (_ - _ - _) as [|s|s]; try lia.
    apply Z.shiftl_nonneg. lia. }
  pose proof (Z.div_pos m' (Zpos my) Hm' ltac:(lia)) as Hq.
  unfold Z.div in Hq.
  destruct (Z.div_eucl m' (Zpos my)) as [q r]. cbn [xorb].
  now apply binary_round_aux_nonneg.
Qed.

End RoundNonneg.

Import FloatArith.

(** ** [GradStats] *)

(** X8.  Merging two accumulators gives the same totals whichever is the
    destination: each sum left by [Reduce(a, b)] in [a] is NaN exactly when
    the sum left by [Reduce(b, a)] in [b] is, and when it is not NaN the two
    sums are the same double, the sign of a zero included. *)
Theorem GradStats_Reduce_comm a b :
  let ab := GradStats.Reduce a b in
  let ba := GradStats.Reduce b a in
  is_nan (sum_grad ab) = is_nan (sum_grad ba) /\
  is_nan (sum_hess ab) = is_nan (sum_hess ba) /\
  (ordered (sum_grad ab) ->
   ordered (sum_grad ba) /\ Prim2SF (sum_grad ab) = Prim2SF (sum_grad ba)) /\
  (ordered (sum_hess ab) ->
   ordered (sum_hess ba) /\ Prim2SF (sum_hess ab) = Prim2SF (sum_hess ba)).
Proof.
  unfold GradStats.Reduce, GradStats.Add. cbn [sum_grad sum_hess].
  rewrite (add_comm (sum_grad a)), (add_comm (sum_hess a)).
  repeat split; assumption.
Qed.

Lemma GradStats_Reduce_comm_witness :
  Prim2SF (sum_grad (GradStats.Reduce (mkGradStats 1.5 2)
                                      (mkGradStats (-0.25) 0.5)))
  = Prim2SF (sum_grad (GradStats.Reduce (mkGradStats (-0.25) 0.5)
                                        (mkGradStats 1.5 2))).
Proof.
  refine (proj2 (proj1 (proj2 (proj2
    (GradStats_Reduce_comm (mkGradStats 1.5 2) (mkGradStats (-0.25) 0.5)))) _)).
  reflexivity.
Defined.

(** X9.  Subtracting the empty accumulator gives back the accumulator, and
    the difference of an accumulator of finite hessian sum with itself is
    empty. *)
Theorem GradStats_SetSubstract_edges a :
  GradStats.SetSubstract a GradStats.default = a /\
  (is_finite (sum_hess a) = true ->
   GradStats.Empty (GradStats.SetSubstract a a) = true).
Proof.
  split.
  - unfold GradStats.SetSubstract, GradStats.default. cbn [sum_grad sum_hess].
    rewrite !sub_zero. now destruct a.
  - unfold GradStats.Empty, GradStats.SetSubstract, Cmp.eq, is_finite,
      is_nan, is_infinity.
    cbn [sum_hess]. intros Hfin.
    rewrite !eqb_spec, abs_spec in Hfin. rewrite eqb_spec, sub_spec.
    change (Prim2SF infinity) with (S754_infinity false) in Hfin.
    change (Prim2SF 0) with (S754_zero false).
    destruct (Prim2SF (sum_hess a)) as [[]|[]| |s m e]; try discriminate;
      try reflexivity.
    now rewrite FloatArith.SFsub_diag.
Qed.

Lemma GradStats_SetSubstract_edges_witness :
  GradStats.Empty
    (GradStats.SetSubstract (mkGradStats 3 2) (mkGradStats 3 2)) = true.
Proof.
  assert (Hfin : is_finite (sum_hess (mkGradStats 3 2)) = true)
    by reflexivity.
  exact (proj2 (GradStats_SetSubstract_edges (mkGradStats 3 2)) Hfin).
Defined.

(** ** [CalcWeight] and [CalcGain] *)

(** X10.  With a positive [max_delta_step] the weight [CalcWeight] returns is
    never greater than [max_delta_step] and never less than
    [-max_delta_step], whatever the statistics and the other parameters. *)
Theorem CalcWeight_within_max_delta_step p g h :
  Cmp.gt (max_delta_step p) 0 = true ->
  Cmp.gt (CalcWeight p g h) (max_delta_step p) = false /\
  Cmp.lt (CalcWeight p g h) (- max_delta_step p) = false.
Proof.
  unfold Cmp.gt, Cmp.lt. intros Hm.
  destruct (positive_bound _ Hm) as (H1 & H2 & H3 & H4).
  unfold CalcWeight, Cmp.ne, Cmp.eq, Cmp.gt, Cmp.lt. rewrite H4. cbn [negb].
  destruct (_ || _); [now split|].
  set (dw := if reg_alpha p =? 0 then _ else _).
  destruct (max_delta_step p <? dw) eqn:E1.
  - rewrite H1, ltb_irrefl. now split.
  - destruct (dw <? - max_delta_step p) eqn:E2.
    + rewrite H1, ltb_irrefl. now split.
    + now split.
Qed.

Lemma CalcWeight_within_max_delta_step_witness :
  Cmp.gt (CalcWeight (Build_TrainParam 1 1 0 0.5 []) (-10) 5) 0.5 = false.
Proof.
  assert (Hm : Cmp.gt (max_delta_step (Build_TrainParam 1 1 0 0.5 [])) 0
               = true) by reflexivity.
  exact (proj1 (CalcWeight_within_max_delta_step
                  (Build_TrainParam 1 1 0 0.5 []) (-10) 5 Hm)).
Defined.

Lemma Sqr_nonneg x :
  nonneg_SF (Prim2SF (Sqr x)) \/ Prim2SF (Sqr x) = S754_nan.
Proof.
  unfold Sqr. rewrite mul_spec.
  destruct (Prim2SF x) eqn:E; try (right; reflexivity);
    left; apply RoundNonneg.SFmul_self_nonneg; discriminate.
Qed.

(** X11.  Without a step limit ([max_delta_step = 0]), for a hessian sum
    above zero and a non-negative [reg_lambda], [CalcGain] never returns a
    negative value: the result is zero or above, or NaN. *)
Theorem CalcGain_never_negative p g h :
  Cmp.eq (max_delta_step p) 0 = true ->
  Cmp.gt h 0 = true -> Cmp.ge (reg_lambda p) 0 = true ->
  Cmp.lt (CalcGain p g h) 0 = false.
Proof.
  intros Hm Hh Hl. pose proof (add_positive _ _ Hh Hl) as Hd.
  unfold Cmp.gt in Hd. rewrite ltb_spec in Hd.
  change (Prim2SF 0) with (S754_zero false) in Hd.
  apply SFltb_zero_positive in Hd.
  unfold CalcGain. rewrite Hm.
  destruct (Cmp.lt h (min_child_weight p)); [reflexivity|].
  assert (Hdiv : forall t,
    Cmp.lt (Sqr t / (h + reg_lambda p)) 0 = false).
  { intros t. unfold Cmp.lt. rewrite ltb_spec, div_spec.
    change (Prim2SF 0) with (S754_zero false).
    destruct (Sqr_nonneg t) as [Hs | Hs].
    - destruct (RoundNonneg.SFdiv_nonneg _ _ Hs Hd) as [Hq | Hq].
      + now destruct (SF64div _ _) as [[]|[]| |[] m e].
      + now rewrite Hq.
    - now rewrite Hs. }
  destruct (Cmp.eq (reg_alpha p) 0); apply Hdiv.
Qed.

Lemma CalcGain_never_negative_witness :
  Cmp.lt (CalcGain (Build_TrainParam 1 1 3 0 []) (-10) 5) 0 = false.
Proof.
  apply (CalcGain_never_negative (Build_TrainParam 1 1 3 0 []) (-10) 5);
    reflexivity.
Defined.

(** ** The sign of a difference, a sum and a quotient *)

Module RoundSign.

Local Open Scope Z_scope.

Lemma binary_round_aux_signed s m e l :
  0 <= m -> signed_SF s (binary_round_aux prec emax s m e l).
Proof.
  intros Hm. unfold binary_round_aux.
  pose proof (RoundNonneg.shr_fexp_nonneg m e l Hm) as H1.
  destruct (shr_fexp prec emax m e l) as [r1 e1]. cbn [fst] in H1.
  pose proof (RoundNonneg.round_nearest_even_nonneg _ (loc_of_shr_record r1) H1) as H2.
  pose proof (RoundNonneg.shr_fexp_nonneg _ e1 loc_Exact H2) as H3.
  destruct (shr_fexp prec emax _ e1 loc_Exact) as [r2 e2]. cbn [fst] in H3.
  destruct (shr_m r2) as [|m3|m3]; try lia; [exact I|].
  now destruct (e2 <=? emax - prec).
Qed.

Lemma binary_normalize_signed m e :
  (0 <= m -> signed_SF false (binary_normalize prec emax m e false)) /\
  (m <= 0 -> signed_SF true (binary_normalize prec emax m e false)).
Proof.
  unfold binary_normalize, binary_round.
  destruct m as [|p|p]; (split; intros Hm; try lia; try exact I);
    destruct (shl_align _ _ _) as [mz ez];
    apply binary_round_aux_signed; lia.
Qed.

Lemma iter_xO m d : Zpos (Pos.iter xO m d) = Zpos m * 2 ^ Zpos d.
Proof.
  revert m. induction d using Pos.peano_ind; intros m.
  - cbn. lia.
  - rewrite Pos.iter_succ, Pos2Z.inj_xO, IHd, Pos2Z.inj_succ,
      Z.pow_succ_r by lia. ring.
Qed.

Lemma shl_align_value m e ez :
  ez <= e -> Zpos (fst (shl_align m e ez)) = Zpos m * 2 ^ (e - ez).
Proof.
  intros He. unfold shl_align.
  destruct (ez - e) as [|d|d] eqn:Ed; cbn [fst].
  - replace (e - ez) with 0 by lia. lia.
  - lia.
  - rewrite iter_xO. f_equal. f_equal. lia.
Qed.

(** Of two valid finite numbers the one of smaller exponent, or of equal
    exponent and smaller mantissa, has the smaller aligned mantissa. *)
Lemma aligned_le m1 e1 m2 e2 s1 s2 :
  valid_binary (S754_finite s1 m1 e1) = true ->
  valid_binary (S754_finite s2 m2 e2) = true ->
  e1 < e2 \/ (e1 = e2 /\ (m1 <= m2)%positive) ->
  Zpos m1 * 2 ^ (e1 - Z.min e1 e2) <= Zpos m2 * 2 ^ (e2 - Z.min e1 e2).
Proof.
  intros V1 V2 [Hlt | [-> Hle]].
  - rewrite Z.min_l by lia. rewrite Z.sub_diag, Z.mul_1_r.
    unfold SpecFloat.valid_binary, bounded, canonical_mantissa, fexp in V1, V2.
    apply andb_true_iff in V1, V2. destruct V1 as [V1 _], V2 as [V2 _].
    apply Z.eqb_eq in V1, V2. fold emin in V1, V2. unfold prec in *.
    pose proof (RoundPositive.digits2_pos_bounds m1) as [_ Hu1].
    pose proof (RoundPositive.digits2_pos_bounds m2) as [Hl2 _].
    assert (Hd2 : Zpos (digits2_pos m2) = 53) by lia.
    assert (Hd1 : Zpos (digits2_pos m1) <= 53) by lia.
    rewrite Hd2 in Hl2. change (2 ^ (53 - 1)) with 4503599627370496 in Hl2.
    assert (Hm1 : Zpos m1 < 2 ^ 53).
    { eapply Z.lt_le_trans; [exact Hu1|]. apply Z.pow_le_mono_r; lia. }
    change (2 ^ 53) with 9007199254740992 in Hm1.
    assert (Hp : 2 <= 2 ^ (e2 - e1)).
    { change 2 with (2 ^ 1) at 1. apply Z.pow_le_mono_r; lia. }
    nia.
  - rewrite Z.min_id, Z.sub_diag, !Z.mul_1_r. lia.
Qed.

Lemma SFltb_finite_pos my ey mx ex :
  SFltb (S754_finite false my ey) (S754_finite false mx ex) = true ->
  ey < ex \/ (ey = ex /\ (my <= mx)%positive).
Proof.
  unfold SFltb, SFcompare. rewrite Pos.compare_cont_spec. cbn.
  destruct (Z.compare_spec ey ex); destruct (Pos.compare_spec my mx);
    intros H'; try discriminate; lia.
Qed.

(** [x - y] for [x > y >= 0] is zero or positive. *)
Lemma SFsub_sign x y :
  valid_binary x = true -> valid_binary y = true ->
  SFleb (S754_zero false) y = true -> SFltb y x = true ->
  signed_SF false (SF64sub x y).
Proof.
  intros Vx Vy Hy Hlt.
  destruct y as [sy|[]| |[] my ey]; try discriminate;
  destruct x as [sx|[]| |[] mx ex]; try discriminate; try exact I;
    try reflexivity.
  apply SFltb_finite_pos in Hlt.
  unfold SF64sub, SFsub. cbn [cond_Zopp].
  apply binary_normalize_signed.
  rewrite !shl_align_value by lia.
  pose proof (aligned_le my ey mx ex false false Vy Vx Hlt) as H.
  rewrite (Z.min_comm ex ey). lia.
Qed.

(** [x + y] for [x < 0] and [0 <= y < -x] is zero or negative. *)
Lemma SFadd_sign x y :
  valid_binary x = true -> valid_binary y = true ->
  SFleb (S754_zero false) y = true -> SFltb x (SFopp y) = true ->
  signed_SF true (SF64add x y).
Proof.
  intros Vx Vy Hy Hlt.
  destruct y as [sy|[]| |[] my ey]; try discriminate;
  destruct x as [sx|[]| |[] mx ex]; try discriminate; try exact I;
    try reflexivity.
  assert (Hmag : ey < ex \/ (ey = ex /\ (my <= mx)%positive)).
  { revert Hlt. unfold SFltb, SFopp, SFcompare. cbn [negb].
    rewrite Pos.compare_cont_spec.
    destruct (Z.compare_spec ex ey); destruct (Pos.compare_spec mx my);
      cbn; intros H'; try discriminate; lia. }
  unfold SF64add, SFadd. cbn [cond_Zopp].
  apply binary_normalize_signed.
  cbn [Z.opp]. rewrite <- ?Pos2Z.opp_pos, !shl_align_value by lia.
  pose proof (aligned_le my ey mx ex false true Vy Vx Hmag) as H.
  rewrite (Z.min_comm ex ey). lia.
Qed.

Lemma signed_SFopp s x : signed_SF s x -> signed_SF (negb s) (SFopp x).
Proof. destruct x as [sx|sx| |sx m e]; cbn; congruence. Qed.

Lemma SFdiv_signed s x d :
  signed_SF s x -> positive_SF d ->
  signed_SF s (SF64div x d) \/ SF64div x d = S754_nan.
Proof.
  intros Hx Hd.
  destruct d as [[]|[]| |[] md ed]; try contradiction;
  destruct x as [sx|sx| |sx mx ex]; try contradiction; cbn in Hx; subst;
    try (left; exact I); try (right; reflexivity);
    try (left; cbn; now rewrite xorb_false_r).
  left. unfold SF64div, SFdiv, SFdiv_core_binary.
  set (m' := match _ with Zpos _ => _ | Z0 => _ | Zneg _ => _ end).
  assert (Hm' : 0 <= m').
  { subst m'. destruct (_ - _ - _) as [|k|k]; try lia.
    apply Z.shiftl_nonneg. lia. }
  pose proof (Z.div_pos m' (Zpos md) Hm' ltac:(lia)) as Hq.
  unfold Z.div in Hq.
  destruct (Z.div_eucl m' (Zpos md)) as [q r]. rewrite xorb_false_r.
  now apply binary_round_aux_signed.
Qed.

End RoundSign.

Import RoundSign.

Lemma nonneg_of_ge a : Cmp.ge a 0 = true -> SFleb (S754_zero false) (Prim2SF a) = true.
Proof. unfold Cmp.ge. now rewrite leb_spec. Qed.

Lemma positive_of_gt a : Cmp.gt a 0 = true -> positive_SF (Prim2SF a).
Proof.
  unfold Cmp.gt. rewrite ltb_spec. apply SFltb_zero_positive.
Qed.

Lemma negative_of_lt a :
  Cmp.lt a 0 = true ->
  match Prim2SF a with
  | S754_finite true _ _ | S754_infinity true => True
  | _ => False
  end.
Proof.
  unfold Cmp.lt. rewrite ltb_spec. change (Prim2SF 0) with (S754_zero false).
  now destruct (Prim2SF a) as [[]|[]| |[] m e].
Qed.

Lemma ThresholdL1_sign g a :
  Cmp.ge a 0 = true ->
  (Cmp.gt g 0 = true -> signed_SF false (Prim2SF (ThresholdL1 g a))) /\
  (Cmp.lt g 0 = true -> signed_SF true (Prim2SF (ThresholdL1 g a))).
Proof.
  intros Ha. apply nonneg_of_ge in Ha.
  split; intros Hg.
  - apply positive_of_gt in Hg. unfold ThresholdL1, Cmp.gt, Cmp.lt.
    destruct (a <? g) eqn:E1.
    + rewrite sub_spec. rewrite ltb_spec in E1.
      apply SFsub_sign; auto using Prim2SF_valid.
    + destruct (g <? - a) eqn:E2; [|exact I].
      rewrite ltb_spec, opp_spec in E2. exfalso.
      destruct (Prim2SF g) as [[]|[]| |[] mg eg]; try contradiction;
      destruct (Prim2SF a) as [[]|[]| |[] ma ea]; discriminate.
  - apply negative_of_lt in Hg. unfold ThresholdL1, Cmp.gt, Cmp.lt.
    destruct (a <? g) eqn:E1.
    + rewrite ltb_spec in E1. exfalso.
      destruct (Prim2SF g) as [[]|[]| |[] mg eg]; try contradiction;
      destruct (Prim2SF a) as [[]|[]| |[] ma ea]; discriminate.
    + destruct (g <? - a) eqn:E2; [|exact I].
      rewrite ltb_spec, opp_spec in E2. rewrite add_spec.
      apply SFadd_sign; auto using Prim2SF_valid.
Qed.

Lemma sgn_div_opp s x d :
  signed_SF s (Prim2SF x) ->
  positive_SF (Prim2SF d) \/ Prim2SF d = S754_nan ->
  sgn (negb s) ((- x) / d).
Proof.
  intros Hx [Hd | Hd]; unfold sgn; rewrite div_spec, opp_spec.
  - apply SFdiv_signed; [now apply signed_SFopp | assumption].
  - right. rewrite Hd. now destruct (SFopp (Prim2SF x)).
Qed.

Lemma sgn_clip s m dw :
  Cmp.ge m 0 = true -> sgn s dw -> sgn s (spec_clip m dw).
Proof.
  intros Hm Hdw. apply nonneg_of_ge in Hm.
  assert (Hms : forall s', signed_SF s' (Prim2SF m) \/
                           positive_SF (Prim2SF m)).
  { intros s'. destruct (Prim2SF m) as [[]|[]| |[] mm em];
      try discriminate; cbn; auto. }
  unfold spec_clip, Cmp.gt, Cmp.lt.
  destruct (m <? dw) eqn:E1.
  - (* dw is above m >= 0: the sign is that of a positive number *)
    assert (Hs : s = false).
    { rewrite ltb_spec in E1. destruct Hdw as [Hdw | Hdw];
        [|rewrite Hdw in E1; unfold SFltb in E1;
          now rewrite SFcompare_nan_r in E1].
      destruct (Prim2SF m) as [[]|[]| |[] mm em]; try discriminate;
      destruct (Prim2SF dw) as [[]|[]| |[] md ed]; try discriminate;
        cbn in Hdw; congruence. }
    subst s.
    assert (E2 : (m <? - m) = false).
    { rewrite ltb_spec, opp_spec.
      destruct (Prim2SF m) as [[]|[]| |[] mm em]; try discriminate;
        try reflexivity. }
    rewrite E2. left.
    destruct (Prim2SF m) as [[]|[]| |[] mm em]; try discriminate;
      cbn; reflexivity || exact I.
  - destruct (dw <? - m) eqn:E2; [|assumption].
    assert (Hs : s = true).
    { rewrite ltb_spec, opp_spec in E2. destruct Hdw as [Hdw | Hdw];
        [|rewrite Hdw in E2; discriminate].
      destruct (Prim2SF m) as [[]|[]| |[] mm em]; try discriminate;
      destruct (Prim2SF dw) as [[]|[]| |[] md ed]; try discriminate;
        cbn in Hdw; congruence. }
    subst s. left. rewrite opp_spec.
    destruct (Prim2SF m) as [[]|[]| |[] mm em]; try discriminate;
      cbn; reflexivity || exact I.
Qed.

Lemma sgn_true_not_positive x : sgn true x -> Cmp.gt x 0 = false.
Proof.
  unfold sgn, Cmp.gt. rewrite ltb_spec.
  change (Prim2SF 0) with (S754_zero false).
  intros [H | H]; [|now rewrite H].
  destruct (Prim2SF x) as [[]|[]| |[] m e]; cbn in H; try discriminate;
    try contradiction; reflexivity.
Qed.

Lemma sgn_false_not_negative x : sgn false x -> Cmp.lt x 0 = false.
Proof.
  unfold sgn, Cmp.lt. rewrite ltb_spec.
  change (Prim2SF 0) with (S754_zero false).
  intros [H | H]; [|now rewrite H].
  destruct (Prim2SF x) as [[]|[]| |[] m e]; cbn in H; try discriminate;
    try contradiction; reflexivity.
Qed.

Lemma divisor_positive_or_nan h l :
  Cmp.le h 0 = false -> Cmp.ge l 0 = true ->
  positive_SF (Prim2SF (h + l)) \/ Prim2SF (h + l) = S754_nan.
Proof.
  intros Hh Hl. destruct (is_nan h) eqn:En.
  - right. apply Prim2SF_nan in En. rewrite add_spec, En. reflexivity.
  - left. apply positive_of_gt. apply add_positive; [|assumption].
    unfold Cmp.gt, Cmp.le in *.
    destruct (0 <? h) eqn:E; [reflexivity|].
    rewrite (ltb_false_leb 0 h eq_refl En E) in Hh. discriminate.
Qed.

(** X21.  For non-negative [reg_alpha], [reg_lambda] and [max_delta_step]
    the weight never has the sign of the gradient sum: for a gradient sum
    above zero [CalcWeight] returns no positive weight, and for a gradient
    sum below zero no negative one. *)
Theorem CalcWeight_opposes_gradient p g h :
  Cmp.ge (reg_alpha p) 0 = true -> Cmp.ge (reg_lambda p) 0 = true ->
  Cmp.ge (max_delta_step p) 0 = true ->
  (Cmp.gt g 0 = true -> Cmp.gt (CalcWeight p g h) 0 = false) /\
  (Cmp.lt g 0 = true -> Cmp.lt (CalcWeight p g h) 0 = false).
Proof.
  intros Ha Hl Hm.
  assert (Hgen : forall s,
    signed_SF s (Prim2SF g) ->
    signed_SF s (Prim2SF (ThresholdL1 g (reg_alpha p))) ->
    sgn (negb s) (CalcWeight p g h)).
  { intros s Hg Ht. unfold CalcWeight.
    destruct (Cmp.lt h (min_child_weight p)) eqn:E1; cbn [orb];
      [left; exact I|].
    destruct (Cmp.le h 0) eqn:E2; [left; exact I|].
    pose proof (divisor_positive_or_nan h _ E2 Hl) as Hd.
    set (dw := if Cmp.eq (reg_alpha p) 0 then _ else _).
    assert (Hdw : sgn (negb s) dw).
    { subst dw. destruct (Cmp.eq (reg_alpha p) 0);
        apply sgn_div_opp; assumption. }
    destruct (Cmp.ne (max_delta_step p) 0); [|assumption].
    now apply (sgn_clip (negb s) (max_delta_step p) dw). }
  destruct (ThresholdL1_sign g _ Ha) as [Tp Tn].
  split; intros Hg.
  - apply sgn_true_not_positive. apply (Hgen false); [|now apply Tp].
    apply positive_of_gt in Hg.
    now destruct (Prim2SF g) as [[]|[]| |[] m e].
  - apply sgn_false_not_negative. apply (Hgen true); [|now apply Tn].
    apply negative_of_lt in Hg.
    now destruct (Prim2SF g) as [[]|[]| |[] m e].
Qed.

Lemma CalcWeight_opposes_gradient_witness :
  Cmp.lt (CalcWeight (Build_TrainParam 1 1 3 0.5 []) (-10) 5) 0 = false.
Proof.
  refine (proj2 (CalcWeight_opposes_gradient
                   (Build_TrainParam 1 1 3 0.5 []) (-10) 5 _ _ _) _);
    reflexivity.
Defined.

(** ** [ValueConstraint], continued *)

(** Only the infinities lie beyond [DBL_MAX] and [-DBL_MAX]. *)
Lemma above_DBL_MAX x : (DBL_MAX <? x) = true -> x = infinity.
Proof.
  intros H. destruct (ltb_ordered _ _ H) as [Hm Hx].
  apply (ltb_lex _ _ Hm Hx) in H. apply Prim2SF_inj.
  change (Prim2SF infinity) with (S754_infinity false).
  pose proof (Prim2SF_valid x) as V. apply ordered_Prim2SF in Hx.
  unfold frank in H. change (Prim2SF DBL_MAX)
    with (S754_finite false 9007199254740991 971) in H.
  destruct (Prim2SF x) as [sx|[]| |[] mx ex]; cbn [rank lex3] in H;
    try congruence; try lia.
  exfalso.
  unfold SpecFloat.valid_binary, bounded, canonical_mantissa, fexp in V.
  apply andb_true_iff in V. destruct V as [V1 V2].
  apply Z.eqb_eq in V1. apply Z.leb_le in V2. unfold prec, emax in *.
  pose proof (RoundPositive.digits2_pos_bounds mx) as [_ Hu].
  assert (Hd : (Zpos (digits2_pos mx) <= 53)%Z) by lia.
  assert (Hmx : (Zpos mx < 2 ^ 53)%Z).
  { eapply Z.lt_le_trans; [exact Hu|]. apply Z.pow_le_mono_r; lia. }
  change (2 ^ 53)%Z with 9007199254740992%Z in Hmx. lia.
Qed.

Lemma below_neg_DBL_MAX x : (x <? - DBL_MAX) = true -> x = neg_infinity.
Proof.
  intros H. destruct (ltb_ordered _ _ H) as [Hx Hm].
  apply (ltb_lex _ _ Hx Hm) in H. apply Prim2SF_inj.
  change (Prim2SF neg_infinity) with (S754_infinity true).
  pose proof (Prim2SF_valid x) as V. apply ordered_Prim2SF in Hx.
  unfold frank in H. change (Prim2SF (- DBL_MAX))
    with (S754_finite true 9007199254740991 971) in H.
  destruct (Prim2SF x) as [sx|[]| |[] mx ex]; cbn [rank lex3] in H;
    try congruence; try lia.
  exfalso.
  unfold SpecFloat.valid_binary, bounded, canonical_mantissa, fexp in V.
  apply andb_true_iff in V. destruct V as [V1 V2].
  apply Z.eqb_eq in V1. apply Z.leb_le in V2. unfold prec, emax in *.
  pose proof (RoundPositive.digits2_pos_bounds mx) as [_ Hu].
  assert (Hd : (Zpos (digits2_pos mx) <= 53)%Z) by lia.
  assert (Hmx : (Zpos mx < 2 ^ 53)%Z).
  { eapply Z.lt_le_trans; [exact Hu|]. apply Z.pow_le_mono_r; lia. }
  change (2 ^ 53)%Z with 9007199254740992%Z in Hmx. lia.
Qed.

(** X12.  With the default constraint the projected weight is the weight of
    the statistics rounded to single precision, except that an infinity,
    which that rounding produces on overflow, is replaced by [DBL_MAX] or
    [-DBL_MAX]; it is therefore never an infinity. *)
Theorem default_CalcWeight_not_infinite p s :
  let w := to_float32 (CalcWeight p (sum_grad s) (sum_hess s)) in
  let r := ValueConstraint.CalcWeight ValueConstraint.default p s in
  (w = infinity -> r = DBL_MAX) /\
  (w = neg_infinity -> r = - DBL_MAX) /\
  (w <> infinity -> w <> neg_infinity -> r = w) /\
  r <> infinity /\ r <> neg_infinity.
Proof.
  intros w r. subst r.
  unfold ValueConstraint.CalcWeight, ValueConstraint.default,
    CalcWeightStats, Cmp.lt, Cmp.gt. cbn [lower_bound upper_bound].
  fold w.
  destruct (w <? - DBL_MAX) eqn:E1.
  - apply below_neg_DBL_MAX in E1.
    split; [intros H; rewrite H in E1; discriminate|].
    split; [reflexivity|].
    split; [intros _ H; contradiction|].
    split; intros H; apply (f_equal is_infinity) in H; discriminate.
  - destruct (DBL_MAX <? w) eqn:E2.
    + apply above_DBL_MAX in E2.
      split; [reflexivity|].
      split; [intros H; rewrite H in E2; discriminate|].
      split; [intros H; contradiction|].
      split; intros H; apply (f_equal is_infinity) in H; discriminate.
    + split; [intros H; rewrite H in E2; discriminate|].
      split; [intros H; rewrite H in E1; discriminate|].
      split; [reflexivity|].
      split; intros H; rewrite H in *; discriminate.
Qed.

(** The double weight [0x1p+1000] overflows single precision and is
    clamped to [DBL_MAX]. *)
Lemma default_CalcWeight_not_infinite_witness :
  CalcWeight (Build_TrainParam 1 0 0 0 []) (-0x1p+1000) 1 = 0x1p+1000 /\
  ValueConstraint.CalcWeight ValueConstraint.default
    (Build_TrainParam 1 0 0 0 []) (mkGradStats (-0x1p+1000) 1) = DBL_MAX.
Proof.
  split; [reflexivity|].
  refine (proj1 (default_CalcWeight_not_infinite
                   (Build_TrainParam 1 0 0 0 [])
                   (mkGradStats (-0x1p+1000) 1)) _).
  reflexivity.
Defined.

(** X13.  A monotone direction can only reject a split: for every direction
    [CalcSplitGain] returns either the gain it returns for direction 0 or
    negative infinity.  When neither projected child weight is NaN, one of
    two opposite directions accepts the split. *)
Theorem CalcSplitGain_direction_only_rejects c p k left right :
  let free := ValueConstraint.CalcSplitGain c p 0 left right in
  (ValueConstraint.CalcSplitGain c p k left right = free \/
   ValueConstraint.CalcSplitGain c p k left right = neg_infinity) /\
  (ordered (ValueConstraint.CalcWeight c p left) ->
   ordered (ValueConstraint.CalcWeight c p right) ->
   forall kpos kneg, (kpos > 0)%Z -> (kneg < 0)%Z ->
   ValueConstraint.CalcSplitGain c p kpos left right = free \/
   ValueConstraint.CalcSplitGain c p kneg left right = free).
Proof.
  intros free. subst free. unfold ValueConstraint.CalcSplitGain.
  cbn [Z.eqb]. split.
  - destruct (k =? 0)%Z; [now left|].
    destruct (k >? 0)%Z.
    + destruct (Cmp.le _ _); [now left | now right].
    + destruct (Cmp.ge _ _); [now left | now right].
  - intros Hl Hr kpos kneg Hp Hn.
    destruct (Z.eqb_spec kpos 0); [lia|].
    destruct (Z.eqb_spec kneg 0); [lia|].
    destruct (Z.gtb_spec kpos 0); [|lia].
    destruct (Z.gtb_spec kneg 0); [lia|].
    unfold Cmp.le, Cmp.ge.
    destruct (leb_total _ _ Hl Hr) as [-> | ->]; [now left | now right].
Qed.

Lemma CalcSplitGain_direction_only_rejects_witness :
  let c := ValueConstraint.default in
  let p := Build_TrainParam 1 1 0 0 [1%Z] in
  let left := mkGradStats (-10) 5 in
  let right := mkGradStats 10 5 in
  ValueConstraint.CalcSplitGain c p 1 left right =
    ValueConstraint.CalcSplitGain c p 0 left right \/
  ValueConstraint.CalcSplitGain c p (-1) left right =
    ValueConstraint.CalcSplitGain c p 0 left right.
Proof.
  intros c p left right.
  assert (Hl : ordered (ValueConstraint.CalcWeight c p left))
    by reflexivity.
  assert (Hr : ordered (ValueConstraint.CalcWeight c p right))
    by reflexivity.
  apply (proj2 (CalcSplitGain_direction_only_rejects c p 1 left right)
           Hl Hr 1%Z (-1)%Z); lia.
Defined.

Lemma SetChild_lookup_in_range c p i left right :
  (0 <= i)%Z -> (i < Z.of_nat (length (monotone_constraints p)))%Z ->
  ValueConstraint.SetChild c p i left right <> OutOfRange.
Proof.
  intros H0 Hlt. unfold ValueConstraint.SetChild.
  destruct (nth_error (monotone_constraints p) (Z.to_nat i)) as [k|] eqn:E.
  - destruct (k =? 0)%Z; [discriminate|].
    destruct (is_nan _); [discriminate|].
    destruct (k <? 0)%Z; discriminate.
  - apply nth_error_None in E. lia.
Qed.

Lemma nth_error_resize l n i :
  (i < n)%nat ->
  nth_error (resize l n) i =
  if (i <? length l)%nat then nth_error l i else Some 0%Z.
Proof.
  intros Hi. unfold resize.
  destruct (Nat.ltb_spec i (length l)) as [Hlt | Hge].
  - rewrite nth_error_app1 by (rewrite length_firstn; lia).
    rewrite nth_error_firstn.
    now destruct (Nat.ltb_spec i n); [|lia].
  - rewrite firstn_all2 by lia.
    rewrite nth_error_app2 by lia.
    apply nth_error_repeat. lia.
Qed.

Lemma length_resize l n : length (resize l n) = n.
Proof.
  unfold resize. rewrite length_app, length_firstn, repeat_length. lia.
Qed.

(** X14.  After [ValueConstraint::Init(param, num_feature)] the list of
    directions has exactly [num_feature] entries, so [SetChild] is in range
    for every feature below [num_feature]: on a feature the list already
    covered it behaves as before, and on a feature beyond the list it gives
    both children the parent's bounds (direction 0). *)
Theorem Init_then_SetChild c p num_feature i left right :
  (0 <= i < num_feature)%Z ->
  let p' := ValueConstraint_Init p num_feature in
  Z.of_nat (length (monotone_constraints p')) = num_feature /\
  ValueConstraint.SetChild c p' i left right <> OutOfRange /\
  ((i < Z.of_nat (length (monotone_constraints p)))%Z ->
   ValueConstraint.SetChild c p' i left right =
   ValueConstraint.SetChild c p i left right) /\
  ((Z.of_nat (length (monotone_constraints p)) <= i)%Z ->
   ValueConstraint.SetChild c p' i left right = Returned c c).
Proof.
  intros Hi p'.
  assert (Hlen : Z.of_nat (length (monotone_constraints p')) = num_feature).
  { subst p'. cbn [ValueConstraint_Init monotone_constraints].
    rewrite length_resize. lia. }
  assert (Hnth : nth_error (monotone_constraints p') (Z.to_nat i) =
                 if (Z.to_nat i <? length (monotone_constraints p))%nat
                 then nth_error (monotone_constraints p) (Z.to_nat i)
                 else Some 0%Z).
  { subst p'. cbn [ValueConstraint_Init monotone_constraints].
    apply nth_error_resize. lia. }
  split; [exact Hlen|].
  assert (Hold : (i < Z.of_nat (length (monotone_constraints p)))%Z ->
    ValueConstraint.SetChild c p' i left right =
    ValueConstraint.SetChild c p i left right).
  { intros Hlt. unfold ValueConstraint.SetChild. rewrite Hnth.
    destruct (Nat.ltb_spec (Z.to_nat i) (length (monotone_constraints p)));
      [|lia].
    reflexivity. }
  assert (Hnew : (Z.of_nat (length (monotone_constraints p)) <= i)%Z ->
    ValueConstraint.SetChild c p' i left right = Returned c c).
  { intros Hge. unfold ValueConstraint.SetChild. rewrite Hnth.
    destruct (Nat.ltb_spec (Z.to_nat i) (length (monotone_constraints p)));
      [lia|].
    reflexivity. }
  split; [|split; assumption].
  destruct (Z.lt_ge_cases i (Z.of_nat (length (monotone_constraints p))))
    as [Hlt | Hge].
  - rewrite (Hold Hlt). intros H.
    apply (SetChild_lookup_in_range c p i left right); [lia | lia | exact H].
  - rewrite (Hnew Hge). discriminate.
Qed.

Lemma Init_then_SetChild_witness :
  ValueConstraint.SetChild ValueConstraint.default
    (ValueConstraint_Init (Build_TrainParam 1 1 0 0 [1%Z]) 3) 2
    (mkGradStats (-2) 1) (mkGradStats (-4) 1) =
  Returned ValueConstraint.default ValueConstraint.default.
Proof.
  assert (Hi : (0 <= 2 < 3)%Z) by lia.
  apply (proj2 (proj2 (proj2
    (Init_then_SetChild ValueConstraint.default
       (Build_TrainParam 1 1 0 0 [1%Z]) 3 2
       (mkGradStats (-2) 1) (mkGradStats (-4) 1) Hi)))).
  cbn. lia.
Defined.

(** ** Search directions *)

(** X15.  Every column is searched in at least one direction: for every
    [default_direction], density and indicator, [NeedForwardSearch] or
    [NeedBackwardSearch] holds; they hold together only when
    [default_direction] is 0 ("learn"). *)
Theorem search_direction_covered dd opt_dense_col col_density indicator :
  NeedForwardSearch dd opt_dense_col col_density indicator
    || NeedBackwardSearch dd col_density indicator = true /\
  (NeedForwardSearch dd opt_dense_col col_density indicator
     && NeedBackwardSearch dd col_density indicator = true -> dd = 0%Z).
Proof.
  unfold NeedForwardSearch, NeedBackwardSearch.
  destruct (Z.eqb_spec dd 2) as [-> | H2]; cbn; [split; [reflexivity|]|].
  - discriminate.
  - destruct (Z.eqb_spec dd 0) as [-> | H0]; cbn.
    + split; [apply orb_true_r | reflexivity].
    + split; [reflexivity | discriminate].
Qed.

Lemma search_direction_covered_witness :
  NeedForwardSearch 0 1 0.5 false || NeedBackwardSearch 0 0.5 false = true /\
  (0 = 0)%Z.
Proof.
  split.
  - exact (proj1 (search_direction_covered 0 1 0.5 false)).
  - exact (proj2 (search_direction_covered 0 1 0.5 false) eq_refl).
Defined.

(** ** Reading and writing [std::vector<int>] *)

Module VecIOFacts.

Import Ascii String DecimalString DecimalPos DecimalZ VecIO.
Local Open Scope Z_scope.

Lemma append_assoc (a b c : string) :
  ((a ++ b) ++ c = a ++ (b ++ c))%string.
Proof. induction a as [|x a IH]; cbn; [reflexivity | now rewrite IH]. Qed.

Lemma length_append (a b : string) :
  String.length (a ++ b)%string = (String.length a + String.length b)%nat.
Proof. induction a as [|x a IH]; cbn; [reflexivity | now rewrite IH]. Qed.

Lemma read_digits_nondigit b :
  starts_nondigit b = true -> read_digits b = (Decimal.Nil, b).
Proof.
  destruct b as [|c r]; cbn; [reflexivity|].
  now destruct (digit c).
Qed.

Lemma read_digits_printed d b :
  starts_nondigit b = true ->
  read_digits (NilEmpty.string_of_uint d ++ b)%string = (d, b).
Proof.
  intros Hb. induction d; cbn; rewrite ?IHd;
    auto using read_digits_nondigit.
Qed.

Lemma nonnil_match {A : Type} (u : Decimal.uint) (a b : A) :
  u <> Decimal.Nil ->
  match u with Decimal.Nil => a | _ => b end = b.
Proof. destruct u; congruence. Qed.

(** What [operator<<] writes for an [int] starts with a digit or a minus
    sign. *)
Lemma put_int_head z :
  exists c s, put_int z = String c s /\ space c = false /\
    Ascii.eqb c ")"%char = false.
Proof.
  unfold put_int. destruct z as [|p|p]; cbn.
  - eexists _, _. repeat split.
  - pose proof (Unsigned.to_uint_nonnil p) as Hn.
    destruct (Pos.to_uint p); try congruence; cbn;
      eexists _, _; repeat split.
  - eexists _, _. repeat split.
Qed.

Lemma put_int_length z : (1 <= String.length (put_int z))%nat.
Proof.
  destruct (put_int_head z) as (c & s & -> & _). cbn. lia.
Qed.

Lemma extract_uint_printed p b :
  starts_nondigit b = true ->
  skipws (NilEmpty.string_of_uint (Pos.to_uint p) ++ b)%string =
    (NilEmpty.string_of_uint (Pos.to_uint p) ++ b)%string /\
  exists c s, NilEmpty.string_of_uint (Pos.to_uint p) = String c s /\
    c <> "-"%char /\ c <> "+"%char.
Proof.
  intros Hb. pose proof (Unsigned.to_uint_nonnil p) as Hn.
  destruct (Pos.to_uint p); try congruence; cbn;
    (split; [reflexivity|]); eexists _, _; repeat split; discriminate.
Qed.

Lemma sign_match_other {A : Type} c (x y z : A) :
  c <> "-"%char -> c <> "+"%char ->
  (match c with "-"%char => x | "+"%char => y | _ => z end) = z.
Proof.
  intros H1 H2.
  destruct c as [[] [] [] [] [] [] [] []]; try reflexivity; congruence.
Qed.

Lemma sign_match_cases {A : Type} c (x y z : A) :
  let m := match c with "-"%char => x | "+"%char => y | _ => z end in
  m = x \/ m = y \/ m = z.
Proof.
  destruct c as [[] [] [] [] [] [] [] []]; cbn; auto.
Qed.

Lemma convert_printed (neg : bool) u b :
  u <> Decimal.Nil -> starts_nondigit b = true ->
  in_int_range (if neg then - Z.of_uint u else Z.of_uint u) ->
  convert neg (NilEmpty.string_of_uint u ++ b)%string =
  (Some (if neg then - Z.of_uint u else Z.of_uint u),
   mkIstream b false (at_end b)).
Proof.
  intros Hu Hb [H1 H2]. unfold convert.
  rewrite (read_digits_printed u b Hb), (nonnil_match _ _ _ Hu). cbn zeta.
  replace ((INT_MIN <=? _) && (_ <=? INT_MAX)) with true; [reflexivity|].
  symmetry. apply andb_true_iff. split; apply Z.leb_le; assumption.
Qed.

Lemma extract_int_printed z b :
  in_int_range z -> starts_nondigit b = true ->
  extract_int (mkIstream (put_int z ++ b)%string false false) =
  (Some z, mkIstream b false (at_end b)).
Proof.
  intros Hz Hb.
  unfold extract_int, put_int. cbn [good failbit eofbit orb negb buf].
  destruct z as [|p|p]; cbn [Z.to_int NilZero.string_of_int].
  - cbn -[convert]. 
    apply (convert_printed false (Decimal.D0 Decimal.Nil) b);
      [discriminate | assumption | exact Hz].
  - unfold NilZero.string_of_uint.
    rewrite (nonnil_match _ _ _ (Unsigned.to_uint_nonnil p)).
    destruct (extract_uint_printed p b Hb) as (Hs & c & s & Hc & H1 & H2).
    rewrite Hs. rewrite Hc at 1. cbn [append].
    rewrite (sign_match_other c _ _ _ H1 H2).
    change (String c (s ++ b)%string) with (String c s ++ b)%string.
    rewrite <- Hc.
    assert (Hv : Z.of_uint (Pos.to_uint p) = Zpos p)
      by (apply (DecimalZ.of_to (Zpos p))).
    rewrite (convert_printed false _ b (Unsigned.to_uint_nonnil p) Hb);
      cbn iota; rewrite Hv; [reflexivity | assumption].
  - unfold NilZero.string_of_uint.
    rewrite (nonnil_match _ _ _ (Unsigned.to_uint_nonnil p)).
    cbn [append skipws space].
    assert (Hv : - Z.of_uint (Pos.to_uint p) = Zneg p)
      by (apply (DecimalZ.of_to (Zneg p))).
    rewrite (convert_printed true _ b (Unsigned.to_uint_nonnil p) Hb);
      cbn iota; rewrite Hv; [reflexivity | assumption].
Qed.

Lemma put_items_length l b :
  (List.length l <= String.length (put_items b l))%nat.
Proof.
  revert b. induction l as [|x l IH]; intros b; cbn [put_items List.length];
    [lia|].
  rewrite !length_append. pose proof (put_int_length x).
  specialize (IH false). lia.
Qed.

Lemma get_ready c r :
  get (mkIstream (String c r) false false) =
  (Some c, mkIstream r false false).
Proof. reflexivity. Qed.

Lemma peek_ready c r :
  peek (mkIstream (String c r) false false) =
  (Some c, mkIstream (String c r) false false).
Proof. reflexivity. Qed.

Lemma get_nonspace_ready f c r :
  space c = false ->
  get_nonspace (S f) (mkIstream (String c r) false false) =
  Some (Some c, mkIstream r false false).
Proof. intros H. cbn. now rewrite H. Qed.

Lemma after_comma_item f c r :
  space c = false -> Ascii.eqb c ")"%char = false ->
  after_comma (S f) (mkIstream (String c r) false false) =
  Some (Some c, mkIstream (String c r) false false).
Proof. intros H1 H2. cbn. now rewrite H1, H2. Qed.

Lemma after_comma_close f r :
  after_comma (S f) (mkIstream (String ")" r) false false) =
  Some (Some ")"%char, mkIstream r false false).
Proof. reflexivity. Qed.

Lemma read_list_step f st tmp t :
  read_list (S f) st tmp t =
  let '(r, st) := extract_int st in
  match r with
  | None => Some (st, tmp)
  | Some idx =>
      let tmp := (tmp ++ [idx])%list in
      match get_nonspace f st with
      | None => None
      | Some (ch, st) =>
          let '(ch, st) := if is_char ch "L" then get st else (ch, st) in
          if is_char ch "," then
            match after_comma f st with
            | None => None
            | Some (ch, st) =>
                if is_char ch ")" then Some (st, tmp)
                else read_list f st tmp t
            end
          else if is_char ch ")" then Some (st, tmp)
          else Some (setstate st true false, t)
      end
  end.
Proof. reflexivity. Qed.

(** The second loop on what [operator<<] writes after the opening
    parenthesis. *)
Lemma read_list_printed xs : forall x tmp t0 fuel rest tail,
  Forall in_int_range (x :: xs) ->
  (List.length xs + 2 <= fuel)%nat ->
  tail = (")" ++ rest)%string \/ tail = (",)" ++ rest)%string ->
  read_list fuel
    (mkIstream (put_int x ++ put_items false xs ++ tail)%string false false)
    tmp t0 =
  Some (mkIstream rest false false, (tmp ++ x :: xs)%list).
Proof.
  induction xs as [|y ys IH]; intros x tmp t0 fuel rest tail Hall Hfuel Htail;
    inversion Hall as [|? ? Hx Hrest]; subst;
    destruct fuel as [|[|f]]; cbn [List.length] in Hfuel; try lia;
    rewrite read_list_step.
  - cbn [put_items append].
    assert (Hnd : starts_nondigit tail = true)
      by (destruct Htail as [-> | ->]; reflexivity).
    rewrite (extract_int_printed x tail Hx Hnd).
    destruct Htail as [-> | ->]; cbn [append at_end].
    + rewrite get_nonspace_ready by reflexivity. reflexivity.
    + rewrite get_nonspace_ready by reflexivity.
      cbn [is_char Ascii.eqb Bool.eqb]. rewrite after_comma_close.
      reflexivity.
  - cbn [put_items].
    rewrite !append_assoc.
    change (("," ++ put_int y ++ put_items false ys ++ tail)%string)
      with (String "," (put_int y ++ put_items false ys ++ tail)%string).
    rewrite (extract_int_printed x
               (String "," (put_int y ++ put_items false ys ++ tail)%string)
               Hx eq_refl).
    cbn [at_end]. rewrite get_nonspace_ready by reflexivity.
    cbn [is_char Ascii.eqb Bool.eqb].
    destruct (put_int_head y) as (c & s & Hc & Hsp & Hpar).
    assert (Hbuf : (put_int y ++ put_items false ys ++ tail)%string =
                   String c (s ++ put_items false ys ++ tail)%string)
      by (rewrite Hc; reflexivity).
    rewrite Hbuf, (after_comma_item _ _ _ Hsp Hpar).
    cbn [is_char]. rewrite Hpar, <- Hbuf.
    replace (tmp ++ x :: y :: ys)%list with ((tmp ++ [x]) ++ y :: ys)%list
      by (rewrite <- app_assoc; reflexivity).
    apply IH; [assumption | lia | assumption].
Qed.

(** X16.  Reading back what [operator<<] wrote for a non-empty vector gives
    the vector: [t] becomes the vector written, the stream stays good, and
    nothing after the closing parenthesis is consumed. *)
Theorem operator_in_reads_operator_out v rest t0 :
  v <> [] -> Forall in_int_range v ->
  operator_in (mkIstream (operator_out v ++ rest)%string false false) t0 =
  Some (mkIstream rest false false, v).
Proof.
  intros Hne Hall. destruct v as [|x xs]; [congruence|].
  unfold operator_in, operator_in_fuel. cbn [buf].
  set (fuel := (String.length (operator_out (x :: xs) ++ rest) + 2)%nat).
  assert (Hfuel : (List.length xs + 2 <= fuel)%nat).
  { subst fuel. unfold operator_out. cbn [put_items].
    rewrite !length_append. pose proof (put_items_length xs false). lia. }
  unfold operator_out. cbn [put_items]. rewrite !append_assoc.
  cbn [append].
  destruct fuel as [|f] eqn:Ef; [lia|].
  cbn [seek_open]. rewrite peek_ready. cbn [isdigit digit].
  rewrite get_ready. cbn [snd is_char Ascii.eqb Bool.eqb].
  apply (read_list_printed xs x [] t0 (S f) rest
           ((if (List.length (x :: xs) =? 1)%nat then "," else "")
              ++ ")" ++ rest)%string Hall Hfuel).
  destruct xs; [right | left]; reflexivity.
Qed.

Lemma operator_in_reads_operator_out_witness :
  operator_in (mkIstream (operator_out [3; -1; 0] ++ " tail")%string
                 false false) [7] =
  Some (mkIstream " tail"%string false false, [3; -1; 0]).
Proof.
  apply (operator_in_reads_operator_out [3; -1; 0] " tail"%string [7]).
  - discriminate.
  - repeat constructor; unfold in_int_range, INT_MIN, INT_MAX; lia.
Defined.

(** X17.  The empty vector does not read back cleanly: it is written as
    ["()"], and reading that assigns the empty vector to [t] but leaves the
    stream failed, with the closing parenthesis unread. *)
Theorem operator_in_empty_vector_fails rest t0 :
  operator_out [] = "()"%string /\
  operator_in (mkIstream (operator_out [] ++ rest)%string false false) t0 =
  Some (mkIstream (")" ++ rest)%string true false, []).
Proof. split; reflexivity. Qed.

(** X18.  A bare integer without parentheses is read as a one-element
    vector when it is not negative; a bare negative integer fails on its
    minus sign, which is consumed, and leaves [t] as it was. *)
Theorem operator_in_bare_integer z rest t0 :
  in_int_range z -> starts_nondigit rest = true ->
  (0 <= z ->
   operator_in (mkIstream (put_int z ++ rest)%string false false) t0 =
   Some (mkIstream rest false (at_end rest), [z])) /\
  (z < 0 ->
   exists digits,
     put_int z = String "-" digits /\
     operator_in (mkIstream (put_int z ++ rest)%string false false) t0 =
     Some (mkIstream (digits ++ rest)%string true false, t0)).
Proof.
  intros Hz Hrest. split; intros Hsign.
  - unfold operator_in, operator_in_fuel. cbn [buf].
    rewrite Nat.add_comm. cbn [Nat.add seek_open].
    assert (Hd : exists c s, put_int z = String c s /\
                             isdigit (Some c) = true).
    { unfold put_int. destruct z as [|p|p]; [| |lia]; cbn.
      - eexists _, _. split; reflexivity.
      - pose proof (Unsigned.to_uint_nonnil p) as Hn.
        destruct (Pos.to_uint p); try congruence; cbn;
          eexists _, _; split; reflexivity. }
    destruct Hd as (c & s & Hc & Hdig).
    assert (Hbuf : (put_int z ++ rest)%string = String c (s ++ rest)%string)
      by (rewrite Hc; reflexivity).
    rewrite Hbuf at 1. rewrite peek_ready, Hdig, <- Hbuf.
    now rewrite (extract_int_printed z rest Hz Hrest).
  - destruct z as [|p|p]; try lia.
    exists (NilZero.string_of_uint (Pos.to_uint p)). split; [reflexivity|].
    reflexivity.
Qed.

Lemma operator_in_bare_integer_witness :
  operator_in (mkIstream (put_int 12 ++ ",")%string false false) [7] =
  Some (mkIstream ","%string false false, [12]).
Proof.
  assert (Hz : in_int_range 12) by (unfold in_int_range, INT_MIN, INT_MAX; lia).
  assert (Hr : starts_nondigit ","%string = true) by reflexivity.
  refine (proj1 (operator_in_bare_integer 12 ","%string [7] Hz Hr) _). lia.
Defined.


(** *** The loops end: the bound of [operator_in] is enough *)

Lemma get_length st :
  (String.length (buf (snd (get st))) <= String.length (buf st))%nat /\
  (isspace (fst (get st)) = true ->
   (String.length (buf (snd (get st))) < String.length (buf st))%nat).
Proof.
  destruct st as [b fb eb]. unfold get, good, setstate.
  cbn [buf failbit eofbit].
  destruct (negb (fb || eb)); destruct b as [|c r]; cbn;
    (split; [lia|]); intros H; try discriminate H; lia.
Qed.

Lemma peek_length st :
  buf (snd (peek st)) = buf st /\
  (isspace (fst (peek st)) = true ->
   (String.length (buf (snd (get (snd (peek st))))) <
    String.length (buf st))%nat).
Proof.
  destruct st as [b fb eb]. unfold peek, get, good, setstate.
  cbn [buf failbit eofbit].
  destruct (negb (fb || eb)) eqn:Hg; destruct b as [|c r]; cbn;
    (split; [reflexivity|]); intros H; try discriminate H.
  cbn [buf failbit eofbit]. rewrite Hg. cbn. lia.
Qed.

Lemma get_nonspace_total fuel : forall st,
  (String.length (buf st) < fuel)%nat ->
  exists ch st', get_nonspace fuel st = Some (ch, st') /\
                 (String.length (buf st') <= String.length (buf st))%nat.
Proof.
  induction fuel as [|f IH]; intros st Hlen; [lia|].
  cbn [get_nonspace]. pose proof (get_length st) as [Hle Hlt].
  destruct (get st) as [ch st1]. cbn [fst snd] in *.
  destruct (isspace ch).
  - destruct (IH st1) as (ch' & st' & E & Hl); [specialize (Hlt eq_refl); lia|].
    exists ch', st'. split; [exact E|]. lia.
  - eauto.
Qed.

Lemma after_comma_total fuel : forall st,
  (String.length (buf st) < fuel)%nat ->
  exists ch st', after_comma fuel st = Some (ch, st') /\
                 (String.length (buf st') <= String.length (buf st))%nat.
Proof.
  induction fuel as [|f IH]; intros st Hlen; [lia|].
  cbn [after_comma]. pose proof (peek_length st) as [Hb Hlt].
  destruct (peek st) as [ch st1]. cbn [fst snd] in *.
  pose proof (get_length st1) as [Hle _].
  destruct (isspace ch).
  - destruct (IH (snd (get st1))) as (ch' & st' & E & Hl);
      [specialize (Hlt eq_refl); lia|].
    exists ch', st'. split; [exact E|]. specialize (Hlt eq_refl). lia.
  - destruct (is_char ch ")"); eexists _, _; (split; [reflexivity|]);
      rewrite <- Hb; [exact Hle | lia].
Qed.

Lemma skipws_length b : (String.length (skipws b) <= String.length b)%nat.
Proof.
  induction b as [|c r IH]; cbn; [lia|]. destruct (space c); cbn; lia.
Qed.

Lemma read_digits_length b :
  (String.length (snd (read_digits b)) <= String.length b)%nat /\
  (fst (read_digits b) <> Decimal.Nil ->
   (String.length (snd (read_digits b)) < String.length b)%nat).
Proof.
  induction b as [|c r [IH1 IH2]]; cbn; [split; [lia | intros; congruence]|].
  destruct (digit c) as [d|]; [|cbn; split; [lia | intros; congruence]].
  destruct (read_digits r) as [u rest]. cbn in *. split; lia.
Qed.

Lemma convert_length neg b1 :
  (String.length (buf (snd (convert neg b1))) <= String.length b1)%nat /\
  (fst (convert neg b1) <> None ->
   (String.length (buf (snd (convert neg b1))) < String.length b1)%nat).
Proof.
  unfold convert. pose proof (read_digits_length b1) as [H1 H2].
  destruct (read_digits b1) as [u rest]. cbn [fst snd] in *.
  destruct u; cbn zeta;
    try (cbn; split; [lia | intros; congruence]);
    (assert (Hlt : (String.length rest < String.length b1)%nat)
       by (apply H2; discriminate));
    match goal with |- context [if ?c then _ else _] => destruct c end;
    cbn; split; try lia; intros; try congruence; lia.
Qed.

Lemma extract_int_length st :
  (String.length (buf (snd (extract_int st))) <= String.length (buf st))%nat /\
  (fst (extract_int st) <> None ->
   (String.length (buf (snd (extract_int st))) < String.length (buf st))%nat).
Proof.
  destruct st as [b fb eb]. unfold extract_int, good, setstate.
  cbn [buf failbit eofbit].
  destruct (negb (fb || eb)); [|cbn; split; [lia | intros; congruence]].
  pose proof (skipws_length b) as Hs.
  destruct (skipws b) as [|c r]; [cbn; split; [lia | intros; congruence]|].
  cbn [String.length] in Hs.
  pose proof (convert_length true r) as [A1 A2].
  pose proof (convert_length false r) as [B1 B2].
  pose proof (convert_length false (String c r)) as [C1 C2].
  cbn [String.length] in C1, C2.
  destruct (sign_match_cases c (convert true r) (convert false r)
              (convert false (String c r))) as [E | [E | E]];
    cbv zeta in E; rewrite E; split; try lia;
    intros Hsome;
    first [specialize (A2 Hsome) | specialize (B2 Hsome)
          | specialize (C2 Hsome)]; lia.
Qed.

Lemma read_list_total fuel : forall st tmp t,
  (String.length (buf st) < fuel)%nat -> exists res, read_list fuel st tmp t = Some res.
Proof.
  induction fuel as [|f IH]; intros st tmp t Hlen; [lia|].
  rewrite read_list_step.
  pose proof (extract_int_length st) as [Hle Hlt].
  destruct (extract_int st) as [[idx|] st1]; cbn [fst snd] in *; [|eauto].
  assert (H1 : (String.length (buf st1) < f)%nat) by (specialize (Hlt ltac:(discriminate)); lia).
  destruct (get_nonspace_total f st1 H1) as (ch & st2 & E2 & H2).
  cbn zeta. rewrite E2.
  assert (H3 : forall ch' st3,
            (if is_char ch "L" then get st2 else (ch, st2)) = (ch', st3) ->
            (String.length (buf st3) <= String.length (buf st2))%nat).
  { intros ch' st3 E. destruct (is_char ch "L").
    - pose proof (get_length st2) as [Hg _]. rewrite E in Hg. exact Hg.
    - injection E as <- <-. lia. }
  destruct (if is_char ch "L" then get st2 else (ch, st2)) as [ch' st3].
  specialize (H3 _ _ eq_refl).
  destruct (is_char ch' ",").
  - destruct (after_comma_total f st3 ltac:(lia)) as (ch4 & st4 & E4 & H4).
    rewrite E4. destruct (is_char ch4 ")"); [eauto|].
    apply IH. lia.
  - destruct (is_char ch' ")"); eauto.
Qed.

Lemma seek_open_total fuel : forall st t,
  (String.length (buf st) < fuel)%nat ->
  (exists res, seek_open fuel st t = Some (inl res)) \/
  (exists st', seek_open fuel st t = Some (inr st') /\
               (String.length (buf st') <= String.length (buf st))%nat).
Proof.
  induction fuel as [|f IH]; intros st t Hlen; [lia|].
  cbn [seek_open]. pose proof (peek_length st) as [Hb Hlt].
  destruct (peek st) as [ch st1]. cbn [fst snd] in *.
  destruct (isdigit ch).
  - left. destruct (extract_int st1) as [[idx|] st2]; eauto.
  - pose proof (get_length st1) as [Hle _].
    destruct (is_char ch "(").
    + right. eexists. split; [reflexivity|]. rewrite <- Hb. exact Hle.
    + destruct (isspace ch); cbn [negb]; [|left; eauto].
      destruct (IH (snd (get st1)) t) as [H | (st' & E & Hl)];
        [specialize (Hlt eq_refl); lia | left; exact H |].
      right. exists st'. split; [exact E|].
      specialize (Hlt eq_refl). lia.
Qed.

(** [operator_in] is defined on every stream and vector. *)
Lemma operator_in_total st t : exists res, operator_in st t = Some res.
Proof.
  unfold operator_in, operator_in_fuel.
  destruct (seek_open_total (String.length (buf st) + 2) st t ltac:(lia))
    as [(res & E) | (st' & E & Hl)]; rewrite E; [eauto|].
  apply read_list_total. lia.
Qed.


(** X19.  On a stream that is not good (failed, or already at its end)
    [operator>>] reads nothing: it sets [failbit] and leaves the unread
    characters and [t] as they were. *)
Theorem operator_in_on_bad_stream st t :
  good st = false ->
  operator_in st t = Some (mkIstream (buf st) true (eofbit st), t).
Proof.
  destruct st as [b fb eb]. unfold good. cbn [failbit eofbit buf].
  intros Hbad. unfold operator_in, operator_in_fuel. cbn [buf].
  rewrite Nat.add_comm. cbn [Nat.add seek_open].
  unfold peek, get, good, setstate. cbn [failbit eofbit buf].
  rewrite Hbad. cbn. rewrite !orb_true_r, !orb_false_r.
  apply negb_false_iff in Hbad. now destruct fb, eb.
Qed.

Lemma operator_in_on_bad_stream_witness :
  operator_in (mkIstream "(1,2)"%string true false) [7] =
  Some (mkIstream "(1,2)"%string true false, [7]).
Proof.
  apply (operator_in_on_bad_stream (mkIstream "(1,2)"%string true false) [7]).
  reflexivity.
Defined.

End VecIOFacts.
